(** * Meeting transcriber: reconciliation engine, audio chunk pipeline and
      websocket session handler

    A shallow embedding of

    - [ElevenLabsRealtimeTranscriber] of [elevenlabs_realtime.py]: the
      committed-text deduplication ([_dedupe_committed_text],
      [_handle_committed_text]) and the audio capture callback with its
      bounded queue ([_audio_callback]);
    - the rolling partial line of the same class
      ([_fit_partial_for_terminal], [_on_partial_transcript],
      [_print_committed_line]);
    - [ws_transcribe] of [app.py]: the websocket bridge between the browser
      and the recognition service, and [list_meetings];
    - the launcher of [local_realtime.py].

    Python [str] values are sequences of Unicode code points, [time.monotonic()]
    readings are binary64 floats, and both are kept that way here.  Clock
    readings, generated identifiers and the outcome of network operations are
    inputs of the functions that consume them. *)

From Stdlib Require Import ZArith NArith String Ascii Floats.PrimFloat.
From Stdlib Require Init.Byte Strings.Byte.
From stdpp Require Import base option list sorting gmap.

Set Default Proof Using "Type".
Set Warnings "-register-all".

(** ** Python strings *)

Module PyStr.

(** A [str] is a sequence of code points. *)
Definition char := N.
Definition str := list char.

(** A literal of the source, written as a Rocq string of ASCII characters. *)
Definition lit (s : string) : str :=
  N_of_ascii <$> list_ascii_of_string s.

(** [str.isspace] for one character, as CPython's [_PyUnicode_IsWhitespace]
    lists it. *)
Definition isspace (c : char) : bool :=
  ((9 <=? c) && (c <=? 13)            (* \t \n \v \f \r *)
   || (28 <=? c) && (c <=? 31)        (* FS GS RS US *)
   || (c =? 32)                       (* space *)
   || (c =? 133)                      (* U+0085 *)
   || (c =? 160)                      (* U+00A0 *)
   || (c =? 5760)                     (* U+1680 *)
   || (8192 <=? c) && (c <=? 8202)    (* U+2000 .. U+200A *)
   || (c =? 8232) || (c =? 8233)      (* U+2028, U+2029 *)
   || (c =? 8239)                     (* U+202F *)
   || (c =? 8287)                     (* U+205F *)
   || (c =? 12288))%N.                (* U+3000 *)

(** [s.lstrip()] *)
Fixpoint lstrip (s : str) : str :=
  match s with
  | [] => []
  | c :: s' => if isspace c then lstrip s' else s
  end.

(** [s.rstrip()] *)
Definition rstrip (s : str) : str := reverse (lstrip (reverse s)).

(** [s.strip()] *)
Definition strip (s : str) : str := lstrip (rstrip s).

(** [s == t] *)
Definition eqb (s t : str) : bool := bool_decide (s = t).

(** [s.startswith(p)] *)
Fixpoint startswith (s p : str) {struct p} : bool :=
  match p with
  | [] => true
  | a :: p' =>
      match s with
      | [] => false
      | b :: s' => (a =? b)%N && startswith s' p'
      end
  end.

(** [s[n:]] and [s[:n]] for [n >= 0] *)
Definition slice_from (n : nat) (s : str) : str := drop n s.
Definition slice_to (n : nat) (s : str) : str := take n s.

(** [s[-n:]] for [n >= 0]: the last [n] characters, the whole string when
    [n] exceeds its length; [s[-0:]] is [s[0:]]. *)
Definition slice_last (n : nat) (s : str) : str :=
  match n with
  | O => s
  | _ => drop (length s - n) s
  end.

(** [text or ""] where [text] may be [None] *)
Definition or_empty (text : option str) : str := default [] text.

(** Truthiness of a string: [not s] *)
Definition is_empty (s : str) : bool :=
  match s with [] => true | _ => false end.

(** The string does not begin with a whitespace character. *)
Definition no_leading_space (s : str) : Prop :=
  match s with [] => True | c :: _ => isspace c = false end.

(** A surrogate code point (U+D800 to U+DFFF): a [str] may hold one on its
    own, as [json.loads] makes of an escape such as ["\ud800"]. *)
Definition is_surrogate (c : char) : bool :=
  ((55296 <=? c) && (c <=? 57343))%N.

(** [s.encode("utf-8")] succeeds: the strict encoder refuses a surrogate,
    which is what writing [s] to a file opened with [encoding="utf-8"]
    comes to. *)
Definition utf8_encodable (s : str) : bool :=
  forallb (λ c, negb (is_surrogate c)) s.

End PyStr.

Import PyStr.

(** ** Python's [range] counting down *)

(** [range(start, stop, -1)] for [stop <= start]: [start, start-1, ..., stop+1];
    empty otherwise. *)
Definition range_down (start stop : nat) : list nat :=
  reverse (seq (S stop) (start - stop)).

(** ** The reconciliation engine ([elevenlabs_realtime.py]) *)

Module Reconcile.

(** The two attributes of the transcriber that [_dedupe_committed_text]
    reads and writes. *)
Record state := State {
  last_committed_text : str;
  last_committed_time : float;
}.

(** [self.last_committed_text = ""; self.last_committed_time = 0.0] *)
Definition init : state := State [] 0%float.

(** [now - self.last_committed_time > 8.0] *)
Definition gap_exceeded (now : float) (st : state) : bool :=
  PrimFloat.ltb 8%float (PrimFloat.sub now (last_committed_time st)).

(** The [for size in range(max_overlap, 19, -1)] loop: [overlap] stays 0
    unless some size matches, and the first match breaks out. *)
Fixpoint scan_overlap (previous current : str) (sizes : list nat) : nat :=
  match sizes with
  | [] => 0
  | size :: rest =>
      if eqb (slice_last size previous) (slice_to size current)
      then size
      else scan_overlap previous current rest
  end.

Definition max_overlap (previous current : str) : nat :=
  Nat.min (length previous) (Nat.min (length current) 220).

Definition find_overlap (previous current : str) : nat :=
  scan_overlap previous current (range_down (max_overlap previous current) 19).

(** [_dedupe_committed_text(self, text)], with the reading of
    [time.monotonic()] passed in as [now].  Returns the new state and the
    returned string. *)
Definition _dedupe_committed_text
    (st : state) (now : float) (text : option str) : state * str :=
  let current := strip (or_empty text) in
  if is_empty current then (st, [])
  else
    let previous := last_committed_text st in
    if is_empty previous then (State current now, current)
    else if gap_exceeded now st then (State current now, current)
    else if eqb current previous then (st, [])
    else if startswith current previous then
      (State current now, lstrip (slice_from (length previous) current))
    else if startswith previous current then (st, [])
    else
      let overlap := find_overlap previous current in
      (State current now,
       if 0 <? overlap then lstrip (slice_from overlap current) else current).

End Reconcile.

(** ** Exceptions *)

(** A call either returns a value or raises. *)
Inductive outcome (E A : Type) : Type :=
  | Returned (a : A)
  | Raised (e : E).
Arguments Returned {E A} a.
Arguments Raised {E A} e.

(** ** [queue.Queue] used from one thread *)

Module PyQueue.

Inductive exn := Full | Empty.

Section Queue.
Context {A : Type}.

(** [queue.Queue(maxsize)]: a FIFO buffer, oldest item first; a [maxsize]
    of zero or less means the queue is unbounded. *)
Record t := Queue {
  maxsize : Z;
  items : list A;
}.

Definition create (maxsize : Z) : t := Queue maxsize [].

Definition qsize (q : t) : nat := length (items q).

(** [0 < self.maxsize <= self._qsize()] *)
Definition full (q : t) : bool :=
  (0 <? maxsize q)%Z && (maxsize q <=? Z.of_nat (qsize q))%Z.

Definition empty (q : t) : bool :=
  match items q with [] => true | _ => false end.

(** [q.put_nowait(x)] *)
Definition put_nowait (q : t) (x : A) : outcome exn t :=
  if full q then Raised Full
  else Returned (Queue (maxsize q) (items q ++ [x])).

(** [q.get_nowait()] *)
Definition get_nowait (q : t) : outcome exn (t * A) :=
  match items q with
  | [] => Raised Empty
  | x :: rest => Returned (Queue (maxsize q) rest, x)
  end.

(** The capacity is respected (trivially so for an unbounded queue). *)
Definition within_capacity (q : t) : Prop :=
  (maxsize q <= 0)%Z ∨ (Z.of_nat (qsize q) <= maxsize q)%Z.

End Queue.
Arguments t : clear implicits.

End PyQueue.

(** ** Signed 16-bit samples and their bytes *)

Module Pcm.

(** Conversion to [np.int16]: wrap-around into [-32768, 32767]. *)
Definition to_int16 (z : Z) : Z := ((z + 32768) mod 65536 - 32768)%Z.

Definition byte_of_Z (z : Z) : Byte.byte :=
  default Byte.x00 (Byte.of_N (Z.to_N (z mod 256))).

(** The two bytes of an [int16] sample, low byte first (the byte order of
    the machines the program runs on). *)
Definition sample_bytes (z : Z) : list Byte.byte :=
  [byte_of_Z z; byte_of_Z (Z.shiftr z 8)].

(** [frame.tobytes()] of a one-dimensional [int16] array *)
Definition tobytes (frame : list Z) : list Byte.byte :=
  frame ≫= sample_bytes.

End Pcm.

(** ** The transcriber object ([elevenlabs_realtime.py]) *)

Module Transcriber.

(** What [_handle_committed_text] appends to [transcript.txt], one entry
    per [_append_transcript] call. *)
Inductive transcript_line :=
  | StampedText (stamp text : str)     (* f"[{stamp}] {text}" *)
  | SegmentPath (index : nat)          (* f"segment_text: {seg_txt}" *)
  | BlankLine.                         (* "" *)

(** The attributes of [ElevenLabsRealtimeTranscriber] that the committed-text
    handler and the audio callback use.  The terminal rendering attributes
    ([last_partial_text], [partial_line_active], [partial_render_len]) only
    drive [print] and are left out, as is the output of [print] itself. *)
Record t := Make {
  chunk_samples : nat;
  audio_queue : PyQueue.t (list Byte.byte);
  stream_wav : list Byte.byte;            (* frames written to stream.wav *)
  segment_index : nat;
  reconcile : Reconcile.state;
  segment_files : gmap nat str;           (* seg_%05d.txt by index *)
  transcript : list transcript_line;      (* transcript.txt after its header *)
  transcript_plain : list str;            (* transcript_plain.txt, one entry
                                             per text, blank line after it *)
}.

(** The fields [__init__] sets, for a given chunk size (the source's
    [int(args.sample_rate * args.chunk_ms / 1000)], a count of samples) and
    queue capacity ([args.max_audio_queue_chunks]).  The session folder is
    made with [mkdir(exist_ok=True)]: when the session name was used before,
    the segment files of that run are still in [segments/], given here as
    [stale]; the transcripts and the audio sink are opened for writing and
    start empty. *)
Definition init (chunk_samples : nat) (max_audio_queue_chunks : Z)
    (stale : gmap nat str) : t :=
  {| chunk_samples := chunk_samples;
     audio_queue := PyQueue.create max_audio_queue_chunks;
     stream_wav := [];
     segment_index := 0;
     reconcile := Reconcile.init;
     segment_files := stale;
     transcript := [];
     transcript_plain := [] |}.

Definition set_reconcile (self : t) (r : Reconcile.state) : t :=
  {| chunk_samples := chunk_samples self;
     audio_queue := audio_queue self;
     stream_wav := stream_wav self;
     segment_index := segment_index self;
     reconcile := r;
     segment_files := segment_files self;
     transcript := transcript self;
     transcript_plain := transcript_plain self |}.

Definition newline : str := [10%N].

Inductive exn := UnicodeEncodeError.

(** How a call of the handler ends: it returns, or an exception leaves it;
    either way the object is left in the state given. *)
Inductive handled :=
  | Handled (self : t)
  | Broke (e : exn) (self : t).

Definition state_of (h : handled) : t :=
  match h with Handled self | Broke _ self => self end.

(** [_handle_committed_text(self, text)]; [now] is the reading of
    [time.monotonic()] inside the deduplication and [stamp] the value of
    [now_stamp()], a clock reading in digits and punctuation.

    The counter is incremented before [seg_txt.write_text(text + "\n",
    encoding="utf-8")] opens the segment file, which empties it, and encodes
    the text: for a text with a surrogate the encoder raises, and the call
    ends there, the counter incremented, the file empty and nothing added to
    the transcripts.  The writes that follow are of the same text and
    succeed; [print] is taken to accept what the files accept (a terminal
    in UTF-8). *)
Definition _handle_committed_text
    (self : t) (now : float) (stamp : str) (text : option str) : handled :=
  let '(r, text) := Reconcile._dedupe_committed_text (reconcile self) now text in
  let self := set_reconcile self r in
  if is_empty text then Handled self
  else
    let index := S (segment_index self) in
    if utf8_encodable text then
      Handled
        {| chunk_samples := chunk_samples self;
           audio_queue := audio_queue self;
           stream_wav := stream_wav self;
           segment_index := index;
           reconcile := reconcile self;
           segment_files := <[index := text ++ newline]> (segment_files self);
           transcript :=
             transcript self ++ [StampedText stamp text; SegmentPath index; BlankLine];
           transcript_plain := transcript_plain self ++ [text] |}
    else
      Broke UnicodeEncodeError
        {| chunk_samples := chunk_samples self;
           audio_queue := audio_queue self;
           stream_wav := stream_wav self;
           segment_index := index;
           reconcile := reconcile self;
           segment_files := <[index := []]> (segment_files self);
           transcript := transcript self;
           transcript_plain := transcript_plain self |}.

(** The frame the callback builds from channel 0 of [indata] (the stream is
    opened with [CHANNELS = 1] and [dtype=np.int16], so [indata] is given
    here as its only column) and the [frames] argument. *)
Definition fit_frame (chunk_samples : nat) (indata : list Z) (frames : nat)
    : list Z :=
  if bool_decide (frames ≠ chunk_samples) then
    let keep := Nat.min (length indata) chunk_samples in
    (Pcm.to_int16 <$> take keep indata) ++ replicate (chunk_samples - keep) 0%Z
  else Pcm.to_int16 <$> indata.

(** The [try: put_nowait ... except queue.Full: ...] statement at the end of
    [_audio_callback]: each [except] clause catches the one exception it
    names and lets any other through. *)
Definition enqueue_drop_oldest {A} (q : PyQueue.t A) (x : A)
    : outcome PyQueue.exn (PyQueue.t A) :=
  match PyQueue.put_nowait q x with
  | Raised PyQueue.Full =>
      let evicted :=
        match PyQueue.get_nowait q with
        | Returned (q1, _) => Returned q1
        | Raised PyQueue.Empty => Returned q
        | Raised PyQueue.Full => Raised PyQueue.Full
        end in
      match evicted with
      | Returned q1 =>
          match PyQueue.put_nowait q1 x with
          | Raised PyQueue.Full => Returned q1
          | r => r
          end
      | Raised e => Raised e
      end
  | r => r
  end.

(** The same statement run for a sequence of chunks, in order. *)
Fixpoint enqueue_all {A} (q : PyQueue.t A) (xs : list A)
    : outcome PyQueue.exn (PyQueue.t A) :=
  match xs with
  | [] => Returned q
  | x :: rest =>
      match enqueue_drop_oldest q x with
      | Returned q' => enqueue_all q' rest
      | Raised e => Raised e
      end
  end.

(** [_audio_callback(self, indata, frames, time_info, status)] *)
Definition _audio_callback (self : t) (indata : list Z) (frames : nat)
    : outcome PyQueue.exn t :=
  let frame := fit_frame (chunk_samples self) indata frames in
  let audio_bytes := Pcm.tobytes frame in
  let wav := stream_wav self ++ audio_bytes in
  match enqueue_drop_oldest (audio_queue self) audio_bytes with
  | Returned q =>
      Returned
        {| chunk_samples := chunk_samples self;
           audio_queue := q;
           stream_wav := wav;
           segment_index := segment_index self;
           reconcile := reconcile self;
           segment_files := segment_files self;
           transcript := transcript self;
           transcript_plain := transcript_plain self |}
  | Raised e => Raised e
  end.

End Transcriber.

(** ** JSON values as [json.loads] returns them *)

Module Json.

Inductive t :=
  | Null
  | Bool (b : bool)
  | Int (z : Z)
  | Float (f : float)
  | Str (s : str)
  | Arr (l : list t)
  | Obj (items : list (str * t)).   (* a dict, by its items *)

(** Truthiness, as [if v:] and [v or w] test it. *)
Definition truthy (v : t) : bool :=
  match v with
  | Null => false
  | Bool b => b
  | Int z => negb (z =? 0)%Z
  | Float f => negb (PrimFloat.eqb f 0%float)
  | Str s => negb (is_empty s)
  | Arr l => match l with [] => false | _ => true end
  | Obj l => match l with [] => false | _ => true end
  end.

Fixpoint assoc (key : str) (items : list (str * t)) : option t :=
  match items with
  | [] => None
  | (k, v) :: rest => if eqb k key then Some v else assoc key rest
  end.

(** [v.get(key)]: [None] of the result stands for a missing key; only a
    dict has the method, anything else raises [AttributeError]. *)
Definition get (v : t) (key : str) : option (option t) :=
  match v with
  | Obj items => Some (assoc key items)
  | _ => None
  end.

(** A missing key reads as Python's [None]. *)
Definition or_none (o : option t) : t := default Null o.

(** [json.dumps(v, ensure_ascii=False).encode("utf-8")] succeeds: no string
    of the value, key or not, holds a surrogate. *)
Fixpoint utf8_ok (v : t) : bool :=
  match v with
  | Str s => utf8_encodable s
  | Arr l => forallb utf8_ok l
  | Obj items =>
      forallb (λ kv, match kv with (k, v') => utf8_encodable k && utf8_ok v' end) items
  | _ => true
  end.

End Json.

(** ** The websocket bridge ([app.py]) *)

Module App.

Inductive exn :=
  | WebSocketDisconnect
  | JSONDecodeError
  | AttributeError
  | UnicodeEncodeError
  | ConnectError (message : str).    (* whatever [connect] raises *)

(** *** The browser's websocket *)

(** The messages [ws.send_json] carries. *)
Inductive error_message :=
  | Text (s : str)                 (* a message built by the handler *)
  | ConnectionFailed (exc : str)   (* f"ElevenLabs connection failed: {exc}" *)
  | Field (v : Json.t)             (* a field of the upstream error event *)
  | StrOf (data : Json.t).         (* str(data) *)

Inductive server_msg :=
  | session_started (meeting_id : str)
  | partial (text : str)
  | committed (text : str)
  | error (message : error_message).

(** The socket, with the browser's part in what is to come: the browser
    may leave at any moment, which the handler notices at its next send or
    close.  [peer_takes] tells how many more sends and closes the browser
    is there for, [None] when it stays to the end. *)
Record websocket := WebSocket {
  sent : list server_msg;       (* what the browser was sent, in order *)
  closed : bool;                (* the handler has closed the socket *)
  peer_takes : option nat;      (* operations left before the browser is gone *)
}.

(** The next send or close goes through. *)
Definition usable (ws : websocket) : bool :=
  negb (closed ws) &&
  match peer_takes ws with Some O => false | _ => true end.

(** What is left after one more operation. *)
Definition one_less (takes : option nat) : option nat := Nat.pred <$> takes.

(** The next [n] sends and closes go through. *)
Definition takes (n : nat) (ws : websocket) : bool :=
  negb (closed ws) &&
  match peer_takes ws with Some k => n <=? k | None => true end.

(** [await ws.send_json(m)]: the message is taken to be delivered whenever
    the browser is there for it, whatever its text. *)
Definition send_json (ws : websocket) (m : server_msg) : outcome exn websocket :=
  if usable ws
  then Returned (WebSocket (sent ws ++ [m]) (closed ws) (one_less (peer_takes ws)))
  else Raised WebSocketDisconnect.

(** [await ws.close()] *)
Definition close (ws : websocket) : outcome exn websocket :=
  if usable ws
  then Returned (WebSocket (sent ws) true (one_less (peer_takes ws)))
  else Raised WebSocketDisconnect.

(** *** The meeting store under [DATA_DIR] *)

Inductive status := recording | completed.

Record metadata := Metadata {
  title : Json.t;
  created_at : str;
  md_status : status;
  duration : Z;
  segment_count : option nat;     (* the key is only set on finalize *)
}.

Record segment := Segment {
  text : str;
  timestamp : str;
}.

(** What a JSON file holds: a document, or nothing, as a file is left when
    [write_text] has opened it for writing and the encoding of the text
    then fails. *)
Inductive json_file (A : Type) :=
  | Blank
  | Doc (a : A).
Arguments Blank {A}.
Arguments Doc {A} a.

(** A meeting folder with the two files the handler writes, each there or
    not. *)
Record meeting_dir := MeetingDir {
  metadata_json : option (json_file metadata);
  transcript_json : option (json_file (list segment));
}.

Definition empty_dir : meeting_dir := MeetingDir None None.

(** [meeting_dir.mkdir(parents=True, exist_ok=True)] *)
Definition mkdir (id : str) (fs : gmap str meeting_dir) : gmap str meeting_dir :=
  match fs !! id with
  | Some _ => fs
  | None => <[id := empty_dir]> fs
  end.

(** What [metadata.json] is set to; the folder exists whenever the handler
    writes. *)
Definition set_metadata (id : str) (f : json_file metadata)
    (fs : gmap str meeting_dir) : gmap str meeting_dir :=
  let d := default empty_dir (fs !! id) in
  <[id := MeetingDir (Some f) (transcript_json d)]> fs.

(** What [transcript.json] is set to. *)
Definition set_transcript (id : str) (f : json_file (list segment))
    (fs : gmap str meeting_dir) : gmap str meeting_dir :=
  let d := default empty_dir (fs !! id) in
  <[id := MeetingDir (metadata_json d) (Some f)]> fs.

(** [(meeting_dir / "metadata.json").write_text(json.dumps(md))], the text
    written in full *)
Definition write_metadata (id : str) (md : metadata)
    (fs : gmap str meeting_dir) : gmap str meeting_dir :=
  set_metadata id (Doc md) fs.

(** [(meeting_dir / "transcript.json").write_text(json.dumps(segments))],
    the text written in full *)
Definition write_transcript (id : str) (segs : list segment)
    (fs : gmap str meeting_dir) : gmap str meeting_dir :=
  set_transcript id (Doc segs) fs.

(** The text of [json.dumps(segments, ensure_ascii=False)] encodes: the
    texts hold no surrogate (the time stamps are clock readings, in digits
    and punctuation). *)
Definition segments_encodable (segs : list segment) : bool :=
  forallb (λ sg, utf8_encodable (text sg)) segs.

(** The text of [json.dumps(metadata, ensure_ascii=False)] encodes: the
    title holds no surrogate (the rest is clock readings, numbers and the
    status). *)
Definition metadata_encodable (md : metadata) : bool :=
  Json.utf8_ok (title md).

Record world := World {
  fs : gmap str meeting_dir;
  ws : websocket;
}.

(** *** The first phase: start message, meeting folder, upstream connect *)

(** What [await ws.receive_text()] followed by [json.loads(raw)] gives. *)
Inductive received :=
  | Disconnected                 (* receive_text raises WebSocketDisconnect *)
  | Undecodable                  (* json.loads raises JSONDecodeError *)
  | Message (msg : Json.t).

(** [RealtimeAudioOptions(...)]; the model, format, sample rate and commit
    strategy are constants of the source. *)
Record options := Options {
  language_code : option Json.t;
}.

(** The state of a bridged session, as the locals of [ws_transcribe] hold it
    once the upstream connection is there. *)
Record session := Session {
  meeting_id : str;
  meta : metadata;
  segments : list segment;
  el_closed : bool;
}.

(** How the first phase ends. *)
Inductive phase1 :=
  | Ended (w : world)                    (* the handler returned *)
  | Crashed (e : exn) (w : world)        (* an exception left the handler *)
  | Bridged (w : world) (s : session).   (* ready to relay *)

Definition is_start (v : option Json.t) : bool :=
  match v with
  | Some (Json.Str s) => eqb s (lit "start")
  | _ => false
  end.

Section StartPhase.
(** [client.speech_to_text.realtime.connect]: returns a connection or
    raises, the exception given by its text. *)
Variable connect : options → outcome str unit.
(** The identifier built from the clock and [uuid4], and the reading of
    [dt.datetime.now().isoformat()]. *)
Variables (new_meeting_id now_iso : str).

(** Lines 147 to 185, for a start message that passed the type test.  The
    first [metadata.json] is written with [json.dumps]'s default
    [ensure_ascii=True], which escapes every character outside ASCII, so
    this write does not fail on the title. *)
Definition open_session (w : world) (start_msg : Json.t) : phase1 :=
  match Json.get start_msg (lit "title"), Json.get start_msg (lit "language") with
  | Some title_field, Some language_field =>
      let title := default (Json.Str (lit "Untitled Meeting")) title_field in
      let language := Json.or_none language_field in
      let md := Metadata title now_iso recording 0 None in
      let fs1 := write_metadata new_meeting_id md (mkdir new_meeting_id (fs w)) in
      match send_json (ws w) (session_started new_meeting_id) with
      | Raised e => Crashed e (World fs1 (ws w))
      | Returned ws1 =>
          let opts :=
            Options (if Json.truthy language then Some language else None) in
          match connect opts with
          | Raised exc =>
              match send_json ws1 (error (ConnectionFailed exc)) with
              | Raised e => Crashed e (World fs1 ws1)
              | Returned ws2 =>
                  match close ws2 with
                  | Raised e => Crashed e (World fs1 ws2)
                  | Returned ws3 => Ended (World fs1 ws3)
                  end
              end
          | Returned _ =>
              Bridged (World fs1 ws1) (Session new_meeting_id md [] false)
          end
      end
  | _, _ => Crashed AttributeError w
  end.

(** Lines 134 to 185: from [ws.accept()] to the upstream connection. *)
Definition start_phase (w : world) (first : received) : phase1 :=
  match first with
  | Disconnected | Undecodable => Ended w
  | Message start_msg =>
      match Json.get start_msg (lit "type") with
      | None => Crashed AttributeError w
      | Some ty =>
          if negb (is_start ty) then
            match send_json (ws w) (error (Text (lit "Expected start message"))) with
            | Raised WebSocketDisconnect => Ended w
            | Raised JSONDecodeError => Ended w
            | Raised e => Crashed e w
            | Returned ws1 =>
                match close ws1 with
                | Raised WebSocketDisconnect => Ended (World (fs w) ws1)
                | Raised JSONDecodeError => Ended (World (fs w) ws1)
                | Raised e => Crashed e (World (fs w) ws1)
                | Returned ws2 => Ended (World (fs w) ws2)
                end
            end
          else open_session w start_msg
      end
  end.
End StartPhase.

(** *** The relay task *)

(** What the upstream callbacks put on [event_queue]. *)
Inductive event :=
  | ev_partial (data : Json.t)
  | ev_committed (data : Json.t)
  | ev_error (data : Json.t)
  | ev_close.

(** [(data.get("text") or "").strip()]; raises where the value has no
    [strip] (a truthy value that is not a string) or [data] no [get]. *)
Definition stripped_text (data : Json.t) : outcome exn str :=
  match Json.get data (lit "text") with
  | None => Raised AttributeError
  | Some field =>
      let v := Json.or_none field in
      if Json.truthy v then
        match v with
        | Json.Str s => Returned (strip s)
        | _ => Raised AttributeError
        end
      else Returned (strip [])
  end.

(** [data.get("error") or data.get("message") or str(data)] *)
Definition error_text (data : Json.t) : outcome exn error_message :=
  match Json.get data (lit "error"), Json.get data (lit "message") with
  | Some e, Some m =>
      if Json.truthy (Json.or_none e) then Returned (Field (Json.or_none e))
      else if Json.truthy (Json.or_none m) then Returned (Field (Json.or_none m))
      else Returned (StrOf data)
  | _, _ => Raised AttributeError
  end.

(** The relay's view of the run: the socket and the locals it updates. *)
Record relay := Relay {
  r_ws : websocket;
  r_segments : list segment;
  r_el_closed : bool;
}.

(** One pass of the [while True] loop of [elevenlabs_to_browser] for an
    event taken off the queue; [now_iso] is the clock reading a committed
    segment is stamped with.  The boolean tells whether the loop goes on:
    every exception of the body makes the task return. *)
Definition relay_event (r : relay) (ev : event) (now_iso : str) : relay * bool :=
  match ev with
  | ev_partial data =>
      match stripped_text data with
      | Raised _ => (r, false)
      | Returned text =>
          if is_empty text then (r, true)
          else
            match send_json (r_ws r) (partial text) with
            | Raised _ => (r, false)
            | Returned ws' => (Relay ws' (r_segments r) (r_el_closed r), true)
            end
      end
  | ev_committed data =>
      match stripped_text data with
      | Raised _ => (r, false)
      | Returned text =>
          if is_empty text then (r, true)
          else
            let segs := r_segments r ++ [Segment text now_iso] in
            match send_json (r_ws r) (committed text) with
            | Raised _ => (Relay (r_ws r) segs (r_el_closed r), false)
            | Returned ws' => (Relay ws' segs (r_el_closed r), true)
            end
      end
  | ev_error data =>
      match error_text data with
      | Raised _ => (r, false)
      | Returned message =>
          match send_json (r_ws r) (error message) with
          | Raised _ => (r, false)
          | Returned ws' => (Relay ws' (r_segments r) (r_el_closed r), true)
          end
      end
  | ev_close => (Relay (r_ws r) (r_segments r) true, false)
  end.

(** [elevenlabs_to_browser] on the events it takes off the queue, each with
    the clock reading at that moment, until it returns or the events end
    (the stop was requested and the queue is empty, or the task was
    cancelled). *)
Fixpoint elevenlabs_to_browser (r : relay) (evs : list (event * str)) : relay :=
  match evs with
  | [] => r
  | (ev, now_iso) :: rest =>
      let '(r', go_on) := relay_event r ev now_iso in
      if go_on then elevenlabs_to_browser r' rest else r'
  end.

(** *** Finalisation *)

(** How the handler ends. *)
Inductive ending :=
  | Finished (w : world)
  | Failed (e : exn) (w : world).

(** The [finally] block: transcript and metadata are written, the metadata
    now "completed"; [elapsed] is the [int(...)] of the loop-clock
    difference.  Closing the socket is attempted and a failure ignored.

    Both files are written with [ensure_ascii=False] and
    [encoding="utf-8"]: [write_text] opens the file, which empties it, and
    encodes the text; where a segment text or the title holds a surrogate
    the encoder raises, the exception leaves the handler from inside the
    [finally] block, and what follows in the block is not run. *)
Definition finalize (fs0 : gmap str meeting_dir) (s : session) (r : relay)
    (elapsed : Z) : ending :=
  if negb (segments_encodable (r_segments r)) then
    Failed UnicodeEncodeError
      (World (set_transcript (meeting_id s) Blank fs0) (r_ws r))
  else
    let fs1 := write_transcript (meeting_id s) (r_segments r) fs0 in
    let md :=
      Metadata (title (meta s)) (created_at (meta s)) completed elapsed
               (Some (length (r_segments r))) in
    if negb (metadata_encodable md) then
      Failed UnicodeEncodeError
        (World (set_metadata (meeting_id s) Blank fs1) (r_ws r))
    else
      let fs2 := write_metadata (meeting_id s) md fs1 in
      let ws' :=
        match close (r_ws r) with
        | Returned ws' => ws'
        | Raised _ => r_ws r
        end in
      Finished (World fs2 ws').

(** *** The handler *)

(** What one run of [ws_transcribe] meets: the first message, the upstream
    connect, fresh identifier and clock readings, the events the relay task
    takes off the queue before it ends, and the elapsed seconds. *)
Record run := Run {
  first_message : received;
  connect : options → outcome str unit;
  new_meeting_id : str;
  started_iso : str;
  relayed : list (event * str);
  elapsed : Z;
}.

(** [ws_transcribe(ws)] *)
Definition ws_transcribe (w : world) (env : run) : ending :=
  match start_phase (connect env) (new_meeting_id env) (started_iso env)
                    w (first_message env) with
  | Ended w' => Finished w'
  | Crashed e w' => Failed e w'
  | Bridged w' s =>
      let r := elevenlabs_to_browser
                 (Relay (ws w') (segments s) (el_closed s)) (relayed env) in
      finalize (fs w') s r (elapsed env)
  end.

(** A start message is a dict whose "type" is the string "start". *)
Definition well_formed_start (msg : Json.t) : Prop :=
  ∃ items, msg = Json.Obj items ∧
           Json.assoc (lit "type") items = Some (Json.Str (lit "start")).

(** A meeting folder whose metadata record still says "recording". *)
Definition dangling (fs : gmap str meeting_dir) (id : str) : Prop :=
  ∃ d md, fs !! id = Some d ∧ metadata_json d = Some (Doc md) ∧
          md_status md = recording.

End App.

(** ** Runs of the transcriber's handlers *)

Module Runs.

(** [_dedupe_committed_text] called for one committed text after another, each
    with the clock reading of its call; the returned strings are collected in
    order. *)
Fixpoint dedupe_all (st : Reconcile.state) (events : list (float * option str))
    : Reconcile.state * list str :=
  match events with
  | [] => (st, [])
  | (now, text) :: rest =>
      let '(st1, out) := Reconcile._dedupe_committed_text st now text in
      let '(st2, outs) := dedupe_all st1 rest in
      (st2, out :: outs)
  end.

(** [_handle_committed_text] called for one committed text after another,
    each with the clock reading and the time stamp of its call; a call that
    raised has left the object as it was at that point, and the calls that
    follow find it so. *)
Fixpoint handle_all (self : Transcriber.t)
    (events : list (float * str * option str)) : Transcriber.t :=
  match events with
  | [] => self
  | (now, stamp, text) :: rest =>
      handle_all
        (Transcriber.state_of (Transcriber._handle_committed_text self now stamp text))
        rest
  end.


(** What a queue of capacity [m] retains of the chunks [all] put into it:
    the newest [m] when it is bounded, all of them otherwise. *)
Definition newest {A} (m : Z) (all : list A) : list A :=
  if (0 <? m)%Z then drop (length all - Z.to_nat m) all else all.

(** A sample that [np.int16] holds. *)
Definition is_int16 (z : Z) : Prop := (-32768 <= z <= 32767)%Z.


(** A commit that grows: the upstream service committing [P ++ s1], then
    [P ++ s1 ++ s2], and so on, at the given clock readings. *)
Fixpoint extensions (P : str) (steps : list (float * str))
    : list (float * option str) :=
  match steps with
  | [] => []
  | (now, suffix) :: rest =>
      (now, Some (P ++ suffix)) :: extensions (P ++ suffix) rest
  end.

(** Each step adds a non-empty suffix that does not begin with whitespace to
    a text that stays trimmed, within the gap window of the step before. *)
Fixpoint extends_ok (st : Reconcile.state) (steps : list (float * str)) : Prop :=
  match steps with
  | [] => True
  | (now, suffix) :: rest =>
      let C := Reconcile.last_committed_text st ++ suffix in
      suffix ≠ [] ∧ no_leading_space suffix ∧ strip C = C ∧
      Reconcile.gap_exceeded now st = false ∧
      extends_ok (Reconcile.State C now) rest
  end.

(** One persisted segment, as the transcript records it: the time stamp,
    the text and the number of the segment file. *)
Record persisted := Persisted {
  p_stamp : str;
  p_text : str;
  p_index : nat;
}.

(** The three transcript lines of a persisted segment. *)
Definition lines_of (p : persisted) : list Transcriber.transcript_line :=
  [Transcriber.StampedText (p_stamp p) (p_text p);
   Transcriber.SegmentPath (p_index p);
   Transcriber.BlankLine].

(** The transcript, the plain transcript and the segment files agree: the
    transcripts list the same segments [recs] in the same order, by rising
    file number; each has a non-empty text that its file holds, followed by
    a newline; every file numbered 1 to the counter is the file of one of
    them or is empty (its write failed); and no other file differs from what
    the folder held when the session began ([stale]). *)
Definition persisted_consistent (stale : gmap nat str) (self : Transcriber.t)
    : Prop :=
  ∃ recs : list persisted,
    Transcriber.transcript self = recs ≫= lines_of ∧
    Transcriber.transcript_plain self = p_text <$> recs ∧
    (∀ i j p q, i < j → recs !! i = Some p → recs !! j = Some q →
                p_index p < p_index q) ∧
    Forall (λ p, p_text p ≠ [] ∧
                 1 ≤ p_index p ≤ Transcriber.segment_index self ∧
                 Transcriber.segment_files self !! p_index p =
                   Some (p_text p ++ Transcriber.newline)) recs ∧
    (∀ i, 1 ≤ i ≤ Transcriber.segment_index self →
          (∃ p, p ∈ recs ∧ p_index p = i) ∨
          Transcriber.segment_files self !! i = Some []) ∧
    (∀ i, i = 0 ∨ Transcriber.segment_index self < i →
          Transcriber.segment_files self !! i = stale !! i).

(** When no write failed: a file per segment, numbered in the order of the
    plain transcript. *)
Definition persisted_in_step (self : Transcriber.t) : Prop :=
  Transcriber.segment_index self = length (Transcriber.transcript_plain self) ∧
  length (Transcriber.transcript self) = 3 * Transcriber.segment_index self ∧
  (∀ i seg, Transcriber.transcript_plain self !! i = Some seg →
            seg ≠ [] ∧
            Transcriber.segment_files self !! S i = Some (seg ++ Transcriber.newline)).

(** The argument [data.get("text", "")] as the deduplication reads it through
    [(text or "").strip()]: a falsy value reads as no text, a truthy value
    that is not a string has no [strip], and [data] must be a dict. *)
Definition committed_text (data : Json.t) : outcome App.exn (option str) :=
  match Json.get data (lit "text") with
  | None => Raised App.AttributeError
  | Some field =>
      let v := default (Json.Str []) field in
      if Json.truthy v then
        match v with
        | Json.Str s => Returned (Some s)
        | _ => Raised App.AttributeError
        end
      else Returned None
  end.

(** How a callback ends: it returns, or an exception leaves it; either way
    the transcriber is left in the state given. *)
Inductive delivered :=
  | Done (self : Transcriber.t)
  | Threw (e : App.exn) (self : Transcriber.t).

(** [self._handle_committed_text(data.get("text", ""))] *)
Definition handle_data (self : Transcriber.t) (now : float) (stamp : str)
    (data : Json.t) : delivered :=
  match committed_text data with
  | Returned text =>
      match Transcriber._handle_committed_text self now stamp text with
      | Transcriber.Handled self' => Done self'
      | Transcriber.Broke Transcriber.UnicodeEncodeError self' =>
          Threw App.UnicodeEncodeError self'
      end
  | Raised e => Threw e self
  end.

(** [_on_committed_transcript(self, data)], with [self.args.include_timestamps] *)
Definition _on_committed_transcript (include_timestamps : bool)
    (self : Transcriber.t) (now : float) (stamp : str) (data : Json.t)
    : delivered :=
  if include_timestamps then Done self
  else handle_data self now stamp data.

(** [_on_committed_with_timestamps(self, data)] *)
Definition _on_committed_with_timestamps (include_timestamps : bool)
    (self : Transcriber.t) (now : float) (stamp : str) (data : Json.t)
    : delivered :=
  if include_timestamps then handle_data self now stamp data
  else Done self.

(** The upstream service delivering both committed events for one commit, in
    either order. *)
Definition deliver_both (timestamped_first include_timestamps : bool)
    (self : Transcriber.t) (now : float) (stamp : str) (data : Json.t)
    : delivered :=
  let first := if timestamped_first then _on_committed_with_timestamps
               else _on_committed_transcript in
  let second := if timestamped_first then _on_committed_transcript
                else _on_committed_with_timestamps in
  match first include_timestamps self now stamp data with
  | Done self' => second include_timestamps self' now stamp data
  | Threw e self' => Threw e self'
  end.

End Runs.

(** ** The terminal side of the transcriber ([elevenlabs_realtime.py]) *)

Module Display.

(** The attributes that drive the rolling partial line, and what [print] has
    written: the text of each call, in order. *)
Record t := Make {
  last_partial_text : str;
  partial_line_active : bool;
  partial_render_len : nat;
  stdout : list str;
}.

(** As [__init__] sets them. *)
Definition init : t := Make [] false 0 [].

Definition cr : str := [13%N].
Definition nl : str := [10%N].
Definition spaces (n : nat) : str := replicate n 32%N.

(** [max(20, width - 1)] for the terminal's column count [width] *)
Definition max_len (width : Z) : nat := Z.to_nat (Z.max 20 (width - 1)).

(** [_fit_partial_for_terminal(self, text)] *)
Definition _fit_partial_for_terminal (width : Z) (text : str) : str :=
  if length text <=? max_len width then text
  else lit "..." ++ slice_last (max_len width - 3) text.

(** [_render_partial_line(self, text)] *)
Definition _render_partial_line (width : Z) (d : t) (text : str) : t :=
  let rendered := _fit_partial_for_terminal width text in
  let clear := spaces (partial_render_len d) in
  Make (last_partial_text d) true (length rendered)
       (stdout d ++ [cr ++ clear ++ cr ++ rendered]).

(** [_on_partial_transcript(self, data)], with [self.args.show_partial] and
    the terminal width at the time of the call *)
Definition _on_partial_transcript (show_partial : bool) (width : Z) (d : t)
    (data : Json.t) : outcome App.exn t :=
  if negb show_partial then Returned d
  else
    match App.stripped_text data with
    | Raised e => Raised e
    | Returned text =>
        if is_empty text then Returned d
        else if eqb text (last_partial_text d) then Returned d
        else
          let d' := _render_partial_line width d text in
          Returned (Make text (partial_line_active d') (partial_render_len d')
                         (stdout d'))
    end.


(** [_on_close(self, *_)], with [self.args.display == "full"] as [full] *)
Definition _on_close (show_partial full : bool) (d : t) : t :=
  let d1 :=
    if show_partial && partial_line_active d then
      Make [] false 0 (stdout d ++ [cr ++ spaces (partial_render_len d) ++ cr ++ nl])
    else d in
  if full then
    Make (last_partial_text d1) (partial_line_active d1) (partial_render_len d1)
         (stdout d1 ++ [lit "Connection closed" ++ nl])
  else d1.

End Display.

(** ** The REST interface ([app.py]) *)

Module Rest.

(** [DATA_DIR]: the meeting folders, by name. *)
Record store := Store {
  meetings : gmap str App.meeting_dir;
}.

(** [s < t] on strings: by code points, the shorter first on a tie. *)
Fixpoint str_ltb (s t : str) : bool :=
  match t with
  | [] => false
  | b :: t' =>
      match s with
      | [] => true
      | a :: s' => (a <? b)%N || ((a =? b)%N && str_ltb s' t')
      end
  end.

(** [s >= t] on strings *)
Definition str_ge (s t : str) : Prop := str_ltb s t = false.

(** One entry of the listing: the metadata with its ["id"] key set. *)
Record listed := Listed {
  l_id : str;
  l_meta : App.metadata;
}.

(** [m.get("created_at", "")] *)
Definition sort_key (m : listed) : str := App.created_at (l_meta m).

(** [a] is not older than [b], by the creation times as strings. *)
Definition not_older (a b : listed) : Prop := str_ge (sort_key a) (sort_key b).

(** [meetings.sort(key=..., reverse=True)]: descending by key, entries with
    equal keys staying in their order. *)
Fixpoint insert_desc (m : listed) (sorted : list listed) : list listed :=
  match sorted with
  | [] => [m]
  | y :: rest =>
      if str_ltb (sort_key m) (sort_key y) then y :: insert_desc m rest
      else m :: sorted
  end.

Definition sort_desc (l : list listed) : list listed :=
  foldr insert_desc [] l.

(** The loop over [DATA_DIR.iterdir()], the folders given in the order the
    system lists them: the record of each [metadata.json] that is there is
    read and collected; [json.loads] raises on a file that holds nothing. *)
Fixpoint collect (folders : list (str * App.meeting_dir))
    : outcome App.exn (list listed) :=
  match folders with
  | [] => Returned []
  | (id, d) :: rest =>
      match App.metadata_json d with
      | None => collect rest
      | Some App.Blank => Raised App.JSONDecodeError
      | Some (App.Doc md) =>
          match collect rest with
          | Returned l => Returned (Listed id md :: l)
          | Raised e => Raised e
          end
      end
  end.

(** [list_meetings()] *)
Definition list_meetings (folders : list (str * App.meeting_dir))
    : outcome App.exn (list listed) :=
  match collect folders with
  | Returned l => Returned (sort_desc l)
  | Raised e => Raised e
  end.

(** The metadata file of the folder is there and holds nothing. *)
Definition unreadable (d : App.meeting_dir) : Prop :=
  App.metadata_json d = Some App.Blank.

End Rest.

(** ** Observations on a run of the websocket handler *)

Module Observe.

(** The world an ending leaves behind. *)
Definition world_of (e : App.ending) : App.world :=
  match e with App.Finished w | App.Failed _ w => w end.

(** The texts of the [committed] messages among those sent, in order. *)
Definition committed_texts (msgs : list App.server_msg) : list str :=
  omap (λ m, match m with App.committed t => Some t | _ => None end) msgs.

(** A string with no whitespace at either end. *)
Definition trimmed (s : str) : Prop := strip s = s.

(** The segment the relay records for an event taken off the queue at the
    clock reading [e.2]: one for a committed event whose text, trimmed, is
    not empty, none for any other event. *)
Definition segment_of (e : App.event * str) : option App.segment :=
  match e.1 with
  | App.ev_committed data =>
      match App.stripped_text data with
      | Returned text =>
          if is_empty text then None else Some (App.Segment text e.2)
      | Raised _ => None
      end
  | _ => None
  end.

(** The number of events the relay task takes off the queue: the one at
    which it returns, and those before it. *)
Fixpoint handled_count (r : App.relay) (evs : list (App.event * str)) : nat :=
  match evs with
  | [] => 0
  | (ev, now_iso) :: rest =>
      let '(r', go_on) := App.relay_event r ev now_iso in
      if go_on then S (handled_count r' rest) else 1
  end.

(** The string does not end with a whitespace character. *)
Definition no_trailing_space (s : str) : Prop :=
  match last s with Some c => isspace c = false | None => True end.

(** Every character is whitespace: what [strip] reduces to nothing. *)
Definition blank (s : str) : Prop := Forall (λ c, isspace c = true) s.

End Observe.

(** ** The launcher of the local transcriber ([local_realtime.py]) *)

Module Launcher.

(** [x in l] for a list of strings *)
Definition mem (x : str) (l : list str) : bool := existsb (eqb x) l.

(** The [if "--display" not in passthrough: passthrough.extend(...)]
    statement of [main]. *)
Definition with_display (passthrough : list str) : list str :=
  if negb (mem (lit "--display") passthrough)
  then passthrough ++ [lit "--display"; lit "text"]
  else passthrough.

(** The command [main] runs and the environment it runs it in, for the
    project folder and the script path written as strings
    ([str(project)], [str(project / "dictation_realtime.py")]). *)
Definition launch (project script : str) (passthrough : list str)
    (environ : gmap str str) : list str * gmap str str :=
  ([lit "uv"; lit "run"; lit "--project"; project; lit "python"; script]
     ++ with_display passthrough,
   delete (lit "VIRTUAL_ENV") environ).

Section Resolve.
(** [Path(p).expanduser().resolve()], whether [dictation_realtime.py] exists
    under a folder, and the sibling folder
    [base / "Dictation-Local-SenseVoice"]. *)
Variable resolve : str → str.
Variable has_script : str → bool.
Variable sibling : str.

Inductive exit :=
  | NotUnder (candidate : str)   (* "dictation_realtime.py not found under ..." *)
  | NoSibling.                   (* "Could not find sibling project ..." *)

(** [resolve_local_project(explicit)] *)
Definition resolve_local_project (explicit : option str) : outcome exit str :=
  if negb (is_empty (or_empty explicit)) then
    let candidate := resolve (or_empty explicit) in
    if has_script candidate then Returned candidate
    else Raised (NotUnder candidate)
  else if has_script sibling then Returned sibling
  else Raised NoSibling.
End Resolve.

End Launcher.

(** * Properties *)

(** ** Strings *)

Section StrFacts.
Implicit Types s t p : str.

Lemma is_empty_true s : is_empty s = true ↔ s = [].
Proof. destruct s; simpl; split; congruence. Qed.

Lemma is_empty_false s : is_empty s = false ↔ s ≠ [].
Proof. destruct s; simpl; split; congruence. Qed.

Lemma eqb_true s t : eqb s t = true ↔ s = t.
Proof. unfold eqb. apply bool_decide_eq_true. Qed.

Lemma eqb_false s t : eqb s t = false ↔ s ≠ t.
Proof. unfold eqb. apply bool_decide_eq_false. Qed.

Lemma eqb_refl s : eqb s s = true.
Proof. by apply eqb_true. Qed.

Lemma startswith_prefix s p : startswith s p = true ↔ p `prefix_of` s.
Proof.
  revert s. induction p as [|a p IH]; intros s; simpl.
  - split; [intros _; apply prefix_nil | done].
  - destruct s as [|b s].
    + split; [done | intros H; by apply prefix_nil_not in H].
    + rewrite andb_true_iff, N.eqb_eq, IH. split.
      * intros [-> H]. by apply prefix_cons.
      * intros H. split; [by apply prefix_cons_inv_1 in H | by apply prefix_cons_inv_2 in H].
Qed.

Lemma startswith_app p t : startswith (p ++ t) p = true.
Proof. apply startswith_prefix. by apply prefix_app_r. Qed.

Lemma startswith_self_false s p :
  startswith s p = false ↔ ¬ p `prefix_of` s.
Proof.
  rewrite <- startswith_prefix. destruct (startswith s p); split; try done.
Qed.

(** Left-trimming removes a prefix: what is left is a suffix. *)
Lemma lstrip_suffix s : lstrip s `suffix_of` s.
Proof.
  induction s as [|c s IH]; simpl; [done|].
  destruct (isspace c); [by apply suffix_cons_r | done].
Qed.

Lemma lstrip_length s : length (lstrip s) ≤ length s.
Proof. apply suffix_length, lstrip_suffix. Qed.

(** A string that does not begin with whitespace is left alone. *)
Lemma lstrip_id s : no_leading_space s → lstrip s = s.
Proof. destruct s as [|c s]; simpl; [done|]. by intros ->. Qed.

Lemma lstrip_no_leading_space s : no_leading_space (lstrip s).
Proof.
  induction s as [|c s IH]; simpl; [done|].
  destruct (isspace c) eqn:E; [done | by simpl].
Qed.

Lemma lstrip_idemp s : lstrip (lstrip s) = lstrip s.
Proof. apply lstrip_id, lstrip_no_leading_space. Qed.

Lemma strip_no_leading_space s : no_leading_space (strip s).
Proof. apply lstrip_no_leading_space. Qed.

Lemma lstrip_strip s : lstrip (strip s) = strip s.
Proof. apply lstrip_idemp. Qed.

(** The slices the overlap search compares. *)
Lemma slice_last_suffix n s : slice_last n s `suffix_of` s.
Proof. destruct n; simpl; [done | apply suffix_drop]. Qed.

Lemma slice_last_length n s :
  0 < n → n ≤ length s → length (slice_last n s) = n.
Proof.
  destruct n; simpl; [lia|]. intros _ H. rewrite length_drop. lia.
Qed.

Lemma slice_last_of_suffix w s :
  w ≠ [] → w `suffix_of` s → slice_last (length w) s = w.
Proof.
  intros Hw [u ->]. destruct w as [|c w]; [done|]. simpl length.
  unfold slice_last. rewrite length_app. simpl length.
  replace (length u + S (length w) - S (length w)) with (length u) by lia.
  apply drop_app_length.
Qed.

Lemma slice_to_of_prefix w s : w `prefix_of` s → slice_to (length w) s = w.
Proof. intros [u ->]. apply take_app_length. Qed.

End StrFacts.

(** ** The overlap search *)

Section OverlapSearch.
Import Reconcile.
Implicit Types P C w : str.

Lemma elem_of_range_down k start stop :
  k ∈ range_down start stop ↔ stop < k ≤ start.
Proof. unfold range_down. rewrite elem_of_reverse, elem_of_seq. lia. Qed.

(** The sizes above [k], then [k], then the sizes below it. *)
Lemma range_down_split start stop k :
  stop < k ≤ start →
  range_down start stop = range_down start k ++ k :: range_down (k - 1) stop.
Proof.
  intros Hk. unfold range_down.
  replace (start - stop) with ((k - 1 - stop) + (1 + (start - k))) by lia.
  rewrite !seq_app, !reverse_app. simpl seq.
  replace (S (stop + (k - 1 - stop))) with k by lia.
  replace (S (stop + (k - 1 - stop) + 1)) with (S k) by lia.
  by rewrite <- app_assoc.
Qed.

Lemma scan_overlap_none P C sizes :
  (∀ size, size ∈ sizes → slice_last size P ≠ slice_to size C) →
  scan_overlap P C sizes = 0.
Proof.
  induction sizes as [|size rest IH]; intros H; simpl; [done|].
  destruct (eqb _ _) eqn:E.
  - apply eqb_true in E. destruct (H size); [left | done].
  - apply IH. intros k Hk. apply H. by right.
Qed.

Lemma scan_overlap_first P C above k below :
  (∀ size, size ∈ above → slice_last size P ≠ slice_to size C) →
  slice_last k P = slice_to k C →
  scan_overlap P C (above ++ k :: below) = k.
Proof.
  induction above as [|size rest IH]; intros H Hk; simpl.
  - by rewrite Hk, eqb_refl.
  - destruct (eqb _ _) eqn:E.
    + apply eqb_true in E. destruct (H size); [left | done].
    + apply IH; [|done]. intros j Hj. apply H. by right.
Qed.

Lemma scan_overlap_cases P C sizes :
  scan_overlap P C sizes = 0 ∨
  (scan_overlap P C sizes ∈ sizes ∧
   slice_last (scan_overlap P C sizes) P = slice_to (scan_overlap P C sizes) C).
Proof.
  induction sizes as [|size rest IH]; simpl; [by left|].
  destruct (eqb _ _) eqn:E.
  - right. split; [left | by apply eqb_true].
  - destruct IH as [IH|[IH1 IH2]]; [by left | right]. split; [by right | done].
Qed.

(** What the search returns is 0 or a size between 20 and the cap. *)
Lemma find_overlap_range P C :
  find_overlap P C = 0 ∨
  (20 ≤ find_overlap P C ≤ max_overlap P C ∧
   slice_last (find_overlap P C) P = slice_to (find_overlap P C) C).
Proof.
  unfold find_overlap.
  destruct (scan_overlap_cases P C (range_down (max_overlap P C) 19))
    as [H|[H1 H2]]; [by left | right].
  apply elem_of_range_down in H1. split; [lia | done].
Qed.

(** A common string of a searched size is seen by the comparison the loop
    makes at that size. *)
Lemma overlap_seen P C w :
  w ≠ [] → w `suffix_of` P → w `prefix_of` C →
  slice_last (length w) P = slice_to (length w) C.
Proof.
  intros Hw HP HC. by rewrite slice_last_of_suffix, slice_to_of_prefix.
Qed.

(** No string of at least 20 characters is both a suffix of [P] and a prefix
    of [C]: the search finds nothing. *)
Lemma find_overlap_nothing P C :
  (∀ w, w `suffix_of` P → w `prefix_of` C → length w < 20) →
  find_overlap P C = 0.
Proof.
  intros H. unfold find_overlap. apply scan_overlap_none.
  intros size [Hlo Hhi]%elem_of_range_down E.
  unfold max_overlap in Hhi.
  specialize (H (slice_to size C)). rewrite <- E in H at 1.
  specialize (H (slice_last_suffix _ _) (prefix_take _ _)).
  unfold slice_to in H. rewrite length_take in H. lia.
Qed.

(** [w] is the longest string of at most 220 characters that is both a
    suffix of [P] and a prefix of [C], and has at least 20: the search
    returns its length. *)
Lemma find_overlap_longest P C w :
  w `suffix_of` P → w `prefix_of` C → 20 ≤ length w ≤ 220 →
  (∀ w', w' `suffix_of` P → w' `prefix_of` C → length w' ≤ 220 →
         length w' ≤ length w) →
  find_overlap P C = length w.
Proof.
  intros HP HC Hlen Hmax. unfold find_overlap.
  assert (length w ≤ max_overlap P C) as Hw.
  { unfold max_overlap. apply suffix_length in HP. apply prefix_length in HC. lia. }
  rewrite (range_down_split _ _ (length w)) by lia.
  apply scan_overlap_first.
  - intros size [Hlo Hhi]%elem_of_range_down E.
    unfold max_overlap in Hhi.
    specialize (Hmax (slice_to size C)). rewrite <- E in Hmax at 1.
    specialize (Hmax (slice_last_suffix _ _) (prefix_take _ _)).
    unfold slice_to in Hmax. rewrite length_take in Hmax. lia.
  - apply overlap_seen; [|done..]. intros ->. simpl in Hlen. lia.
Qed.

(** The maximality premise above, decided by running the comparisons. *)
Lemma longest_by_comparisons P C n :
  0 < n →
  forallb (λ k, negb (eqb (slice_last k P) (slice_to k C)))
          (range_down (max_overlap P C) n) = true →
  ∀ w', w' `suffix_of` P → w' `prefix_of` C → length w' ≤ 220 → length w' ≤ n.
Proof.
  intros Hn Hall w' HP HC Hcap.
  destruct (decide (length w' ≤ n)) as [|Hgt]; [done|]. exfalso.
  assert (w' ≠ []) as Hne by (intros ->; simpl in Hgt; lia).
  assert (length w' ∈ range_down (max_overlap P C) n) as Hin.
  { apply elem_of_range_down. unfold max_overlap.
    apply suffix_length in HP. apply prefix_length in HC. lia. }
  rewrite forallb_forall in Hall.
  apply list_elem_of_In, Hall in Hin.
  rewrite (overlap_seen P C w'), eqb_refl in Hin by done. discriminate Hin.
Qed.

End OverlapSearch.

(** ** The reconciliation engine *)

Section ReconcileFacts.
Import Reconcile.
Implicit Types (st : state) (now : float) (text : option str).

(** The engine past its first three tests: the text is not empty, there is a
    previous commit, and the gap test does not fire. *)
Lemma dedupe_within_window st now text :
  strip (or_empty text) ≠ [] →
  last_committed_text st ≠ [] →
  gap_exceeded now st = false →
  _dedupe_committed_text st now text =
    let current := strip (or_empty text) in
    let previous := last_committed_text st in
    if eqb current previous then (st, [])
    else if startswith current previous then
      (State current now, lstrip (slice_from (length previous) current))
    else if startswith previous current then (st, [])
    else
      let overlap := find_overlap previous current in
      (State current now,
       if 0 <? overlap then lstrip (slice_from overlap current) else current).
Proof.
  intros HC HP Hgap. unfold _dedupe_committed_text. cbv zeta.
  apply is_empty_false in HC, HP. by rewrite HC, HP, Hgap.
Qed.

(** The engine in its last case: the text differs from the previous one and
    neither begins with the other. *)
Lemma dedupe_fallback st now text :
  strip (or_empty text) ≠ [] →
  last_committed_text st ≠ [] →
  gap_exceeded now st = false →
  strip (or_empty text) ≠ last_committed_text st →
  ¬ last_committed_text st `prefix_of` strip (or_empty text) →
  ¬ strip (or_empty text) `prefix_of` last_committed_text st →
  _dedupe_committed_text st now text =
    let current := strip (or_empty text) in
    let overlap := find_overlap (last_committed_text st) current in
    (State current now,
     if 0 <? overlap then lstrip (slice_from overlap current) else current).
Proof.
  intros HC HP Hgap Hne H1 H2. rewrite dedupe_within_window by done. cbv zeta.
  apply eqb_false in Hne. apply startswith_self_false in H1, H2.
  by rewrite Hne, H1, H2.
Qed.

End ReconcileFacts.

(** C3: in the fallback case (text not empty, within the gap window, different
    from the previous text, neither a prefix of the other), when [w] is the
    longest string of the searched sizes (at most 220 characters, at least 20)
    that is both a suffix of the previous text [P] and a prefix of the current
    text [C], the engine returns [C] without its first [|w|] characters,
    left-trimmed, and records [C] and the current time.  For
    P = "I think we should ship the release today" and
    C = "ship the release today and notify the team" it returns
    "and notify the team". *)
Theorem overlap_removed_from_front :
  (∀ (st : Reconcile.state) (now : float) (text : option str) (w : str),
     let P := Reconcile.last_committed_text st in
     let C := strip (or_empty text) in
     C ≠ [] → P ≠ [] → Reconcile.gap_exceeded now st = false →
     C ≠ P → ¬ P `prefix_of` C → ¬ C `prefix_of` P →
     w `suffix_of` P → w `prefix_of` C → 20 ≤ length w ≤ 220 →
     (∀ w', w' `suffix_of` P → w' `prefix_of` C → length w' ≤ 220 →
            length w' ≤ length w) →
     Reconcile._dedupe_committed_text st now text =
       (Reconcile.State C now, lstrip (slice_from (length w) C)))
  ∧
  (∀ (t now : float),
     let P := lit "I think we should ship the release today" in
     let C := lit "ship the release today and notify the team" in
     Reconcile.gap_exceeded now (Reconcile.State P t) = false →
     Reconcile._dedupe_committed_text (Reconcile.State P t) now (Some C) =
       (Reconcile.State C now, lit "and notify the team")).
Proof.
  split.
  - intros st now text w P C HC HP Hgap Hne H1 H2 HwP HwC Hlen Hmax.
    rewrite dedupe_fallback by done. cbv zeta. fold C P.
    rewrite (find_overlap_longest P C w) by done.
    destruct (Nat.ltb_spec 0 (length w)); [done | lia].
  - intros t now P C Hgap.
    unfold Reconcile._dedupe_committed_text. cbv zeta.
    change (Reconcile.last_committed_text (Reconcile.State P t)) with P.
    rewrite Hgap. by vm_compute.
Qed.

(** The overlap law at the inputs of its example, from its general part, and
    the example itself at concrete clock readings. *)
Lemma overlap_removed_from_front_witness :
  let P := lit "I think we should ship the release today" in
  let C := lit "ship the release today and notify the team" in
  Reconcile._dedupe_committed_text (Reconcile.State P 100%float) 103.5%float (Some C)
    = (Reconcile.State C 103.5%float,
       lstrip (slice_from (length (lit "ship the release today")) C))
  ∧ Reconcile._dedupe_committed_text (Reconcile.State P 100%float) 103.5%float (Some C)
    = (Reconcile.State C 103.5%float, lit "and notify the team").
Proof.
  split.
  - apply (proj1 overlap_removed_from_front
             (Reconcile.State (lit "I think we should ship the release today") 100%float)
             103.5%float
             (Some (lit "ship the release today and notify the team"))
             (lit "ship the release today")).
    + vm_compute. discriminate.
    + vm_compute. discriminate.
    + vm_compute. reflexivity.
    + vm_compute. discriminate.
    + apply startswith_self_false. vm_compute. reflexivity.
    + apply startswith_self_false. vm_compute. reflexivity.
    + exists (lit "I think we should "). vm_compute. reflexivity.
    + exists (lit " and notify the team"). vm_compute. reflexivity.
    + vm_compute. lia.
    + apply longest_by_comparisons; [vm_compute; lia | vm_compute; reflexivity].
  - apply (proj2 overlap_removed_from_front 100%float 103.5%float).
    vm_compute. reflexivity.
Defined.

(** C4: in the fallback case, when no string of at least 20 characters is
    both a suffix of the previous text [P] and a prefix of the current text
    [C], the engine returns [C] unchanged and records [C] and the current
    time.  For P = "...the quick brown" and C = "brown fox jumps", whose
    common part "brown" has 5 characters, it returns [C] whole. *)
Theorem short_overlap_emits_verbatim :
  (∀ (st : Reconcile.state) (now : float) (text : option str),
     let P := Reconcile.last_committed_text st in
     let C := strip (or_empty text) in
     C ≠ [] → P ≠ [] → Reconcile.gap_exceeded now st = false →
     C ≠ P → ¬ P `prefix_of` C → ¬ C `prefix_of` P →
     (∀ w, w `suffix_of` P → w `prefix_of` C → length w < 20) →
     Reconcile._dedupe_committed_text st now text = (Reconcile.State C now, C))
  ∧
  (∀ (t now : float),
     let P := lit "...the quick brown" in
     let C := lit "brown fox jumps" in
     Reconcile.gap_exceeded now (Reconcile.State P t) = false →
     lit "brown" `suffix_of` P ∧ lit "brown" `prefix_of` C ∧
     Reconcile._dedupe_committed_text (Reconcile.State P t) now (Some C) =
       (Reconcile.State C now, C)).
Proof.
  split.
  - intros st now text P C HC HP Hgap Hne H1 H2 Hshort.
    rewrite dedupe_fallback by done. cbv zeta. fold C P.
    by rewrite (find_overlap_nothing P C).
  - intros t now P C Hgap. split; [|split].
    + by exists (lit "...the quick ").
    + by exists (lit " fox jumps").
    + unfold Reconcile._dedupe_committed_text. cbv zeta.
      change (Reconcile.last_committed_text (Reconcile.State P t)) with P.
      rewrite Hgap. by vm_compute.
Qed.

(** The floor of 20 characters at work on the inputs of the example. *)
Lemma short_overlap_emits_verbatim_witness :
  let P := lit "...the quick brown" in
  let C := lit "brown fox jumps" in
  Reconcile._dedupe_committed_text (Reconcile.State P 100%float) 103.5%float (Some C)
    = (Reconcile.State C 103.5%float, C).
Proof.
  apply (proj1 short_overlap_emits_verbatim
           (Reconcile.State (lit "...the quick brown") 100%float)
           103.5%float (Some (lit "brown fox jumps"))).
  - vm_compute. discriminate.
  - vm_compute. discriminate.
  - vm_compute. reflexivity.
  - vm_compute. discriminate.
  - apply startswith_self_false. vm_compute. reflexivity.
  - apply startswith_self_false. vm_compute. reflexivity.
  - intros w _ Hw. apply prefix_length in Hw.
    match type of Hw with
    | _ ≤ ?n => assert (n = 15) as E by (vm_compute; reflexivity); lia
    end.
Defined.

(** C5: for a non-empty previous text [P] and a non-empty [suffix] that does
    not begin with whitespace, reconciling the (trimmed) text [P ++ suffix]
    within the gap window returns exactly [suffix] and records [P ++ suffix]
    and the current time. *)
Theorem extension_emits_suffix
    (st : Reconcile.state) (now : float) (text : option str) (suffix : str) :
  let P := Reconcile.last_committed_text st in
  P ≠ [] → suffix ≠ [] → no_leading_space suffix →
  strip (or_empty text) = P ++ suffix →
  Reconcile.gap_exceeded now st = false →
  Reconcile._dedupe_committed_text st now text =
    (Reconcile.State (P ++ suffix) now, suffix).
Proof.
  intros P HP Hs Hlead HC Hgap.
  rewrite dedupe_within_window; [|rewrite HC; by destruct P|done..].
  cbv zeta. fold P. rewrite HC.
  assert (P ++ suffix ≠ P) as Hne.
  { intros E. apply (f_equal length) in E. rewrite length_app in E.
    destruct suffix; [done | simpl in E; lia]. }
  apply eqb_false in Hne. rewrite Hne, startswith_app.
  unfold slice_from. by rewrite drop_app_length, lstrip_id.
Qed.

(** The extension law on "Good morning" extended by "everyone". *)
Lemma extension_emits_suffix_witness :
  Reconcile._dedupe_committed_text
    (Reconcile.State (lit "Good morning, ") 100%float) 101.25%float
    (Some (lit "  Good morning, everyone  "))
  = (Reconcile.State (lit "Good morning, everyone") 101.25%float, lit "everyone").
Proof.
  apply (extension_emits_suffix
           (Reconcile.State (lit "Good morning, ") 100%float) 101.25%float
           (Some (lit "  Good morning, everyone  ")) (lit "everyone")).
  - vm_compute. discriminate.
  - vm_compute. discriminate.
  - vm_compute. reflexivity.
  - vm_compute. reflexivity.
  - vm_compute. reflexivity.
Defined.

(** C6: for a non-empty previous text [P], reconciling a text equal to [P]
    within the gap window returns the empty string and leaves the state as it
    was: neither the remembered text nor its time changes. *)
Theorem exact_duplicate_leaves_state
    (st : Reconcile.state) (now : float) (text : option str) :
  Reconcile.last_committed_text st ≠ [] →
  strip (or_empty text) = Reconcile.last_committed_text st →
  Reconcile.gap_exceeded now st = false →
  Reconcile._dedupe_committed_text st now text = (st, []).
Proof.
  intros HP HC Hgap.
  rewrite dedupe_within_window; [|by rewrite HC|done..].
  cbv zeta. by rewrite HC, eqb_refl.
Qed.

(** The duplicate law seven seconds after the commit it repeats. *)
Lemma exact_duplicate_leaves_state_witness :
  Reconcile._dedupe_committed_text
    (Reconcile.State (lit "see you tomorrow") 100%float) 107%float
    (Some (lit "see you tomorrow "))
  = (Reconcile.State (lit "see you tomorrow") 100%float, []).
Proof.
  apply (exact_duplicate_leaves_state
           (Reconcile.State (lit "see you tomorrow") 100%float) 107%float
           (Some (lit "see you tomorrow "))).
  - vm_compute. discriminate.
  - vm_compute. reflexivity.
  - vm_compute. reflexivity.
Defined.

(** C7: for a non-empty previous text and a non-empty current text [C], when
    the time since the last recorded commit exceeds 8 seconds the engine
    returns [C] unchanged, whatever the two texts share, and records [C] and
    the current time. *)
Theorem gap_reset_emits_verbatim
    (st : Reconcile.state) (now : float) (text : option str) :
  let C := strip (or_empty text) in
  Reconcile.last_committed_text st ≠ [] → C ≠ [] →
  Reconcile.gap_exceeded now st = true →
  Reconcile._dedupe_committed_text st now text = (Reconcile.State C now, C).
Proof.
  intros C HP HC Hgap. unfold Reconcile._dedupe_committed_text. cbv zeta. fold C.
  apply is_empty_false in HP, HC. by rewrite HC, HP, Hgap.
Qed.

(** The gap law on a repeated text, nine seconds after its first commit. *)
Lemma gap_reset_emits_verbatim_witness :
  Reconcile._dedupe_committed_text
    (Reconcile.State (lit "see you tomorrow") 100%float) 109%float
    (Some (lit "see you tomorrow"))
  = (Reconcile.State (lit "see you tomorrow") 109%float, lit "see you tomorrow").
Proof.
  apply (gap_reset_emits_verbatim
           (Reconcile.State (lit "see you tomorrow") 100%float) 109%float
           (Some (lit "see you tomorrow"))).
  - vm_compute. discriminate.
  - vm_compute. discriminate.
  - vm_compute. reflexivity.
Defined.

(** ** What the engine returns and what the handler persists *)

Section Emitted.
Import Reconcile.

Lemma rstrip_prefix (s : str) : rstrip s `prefix_of` s.
Proof.
  unfold rstrip. destruct (lstrip_suffix (reverse s)) as [u Hu].
  exists (reverse u). apply (f_equal reverse) in Hu.
  by rewrite reverse_involutive, reverse_app in Hu.
Qed.

(** Trimming cuts a string out of the middle of the text. *)
Lemma strip_infix (s : str) : ∃ a b, s = a ++ strip s ++ b.
Proof.
  destruct (rstrip_prefix s) as [b Hb].
  destruct (lstrip_suffix (rstrip s)) as [a Ha].
  exists a, b. fold (strip s) in Ha. by rewrite app_assoc, <- Ha.
Qed.

(** The whole of a trimmed text is its own left-trimmed tail from 0. *)
Lemma whole_is_tail (text : option str) :
  strip (or_empty text) ≠ [] →
  ∃ k, k < length (strip (or_empty text)) ∧
       strip (or_empty text) = lstrip (slice_from k (strip (or_empty text))).
Proof.
  intros HC. exists 0. split.
  - destruct (strip (or_empty text)); [done | simpl; lia].
  - unfold slice_from. by rewrite drop_0, lstrip_strip.
Qed.

Lemma dedupe_result_shape (st : state) (now : float) (text : option str) :
  let current := strip (or_empty text) in
  (_dedupe_committed_text st now text).2 = [] ∨
  ∃ k, k < length current ∧
       (_dedupe_committed_text st now text).2 = lstrip (slice_from k current).
Proof.
  intros current. unfold _dedupe_committed_text. cbv zeta. fold current.
  destruct (is_empty current) eqn:HC; [by left|].
  apply is_empty_false in HC.
  destruct (is_empty (last_committed_text st)) eqn:HP;
    [right; by apply whole_is_tail|].
  destruct (gap_exceeded now st); [right; by apply whole_is_tail|].
  destruct (eqb current _) eqn:Heq; [by left|]. apply eqb_false in Heq.
  destruct (startswith current _) eqn:Hext.
  { right. exists (length (last_committed_text st)). split; [|done].
    apply startswith_prefix in Hext. destruct Hext as [t Ht].
    rewrite Ht, length_app. destruct t as [|c t]; [|simpl; lia].
    by rewrite app_nil_r in Ht. }
  destruct (startswith _ current); [by left|]. simpl.
  destruct (find_overlap_range (last_committed_text st) current) as [->|[Hr _]].
  { right. by apply whole_is_tail. }
  destruct (Nat.ltb_spec 0 (find_overlap (last_committed_text st) current));
    [|lia].
  unfold max_overlap in Hr.
  destruct (decide (find_overlap (last_committed_text st) current = length current))
    as [->|Hlt].
  - left. unfold slice_from. by rewrite drop_all.
  - right. eexists. split; [|done]. lia.
Qed.

End Emitted.

(** C9: whatever the state and the text, the deduplication returns the empty
    string or [current[k:].lstrip()] for some [0 <= k < |current|], where
    [current] is the trimmed text; so a call of the handler that returns
    either persists nothing or persists, as its one new segment, a non-empty
    suffix of the trimmed text, itself cut out of the text of the event; and
    a call that raises (the text to persist holds a surrogate, which the
    segment file's encoding refuses) persists no text: it leaves the counter
    incremented, the segment file empty and the transcripts as they were. *)
Theorem dedupe_returns_trimmed_tail :
  (∀ (st : Reconcile.state) (now : float) (text : option str),
     let current := strip (or_empty text) in
     let emitted := (Reconcile._dedupe_committed_text st now text).2 in
     emitted = [] ∨
     ∃ k, k < length current ∧ emitted = lstrip (slice_from k current))
  ∧
  (∀ (self : Transcriber.t) (now : float) (stamp : str) (text : option str),
     let current := strip (or_empty text) in
     match Transcriber._handle_committed_text self now stamp text with
     | Transcriber.Handled self' =>
         (Transcriber.segment_index self' = Transcriber.segment_index self ∧
          Transcriber.segment_files self' = Transcriber.segment_files self ∧
          Transcriber.transcript self' = Transcriber.transcript self ∧
          Transcriber.transcript_plain self' = Transcriber.transcript_plain self)
         ∨
         ∃ k seg,
           k < length current ∧ seg = lstrip (slice_from k current) ∧ seg ≠ [] ∧
           seg `suffix_of` current ∧
           (∃ a b, or_empty text = a ++ current ++ b) ∧
           utf8_encodable seg = true ∧
           Transcriber.segment_index self' = S (Transcriber.segment_index self) ∧
           Transcriber.segment_files self' =
             <[S (Transcriber.segment_index self) := seg ++ Transcriber.newline]>
               (Transcriber.segment_files self) ∧
           Transcriber.transcript self' =
             Transcriber.transcript self ++
               [Transcriber.StampedText stamp seg;
                Transcriber.SegmentPath (S (Transcriber.segment_index self));
                Transcriber.BlankLine] ∧
           Transcriber.transcript_plain self' =
             Transcriber.transcript_plain self ++ [seg]
     | Transcriber.Broke e self' =>
         ∃ k seg,
           k < length current ∧ seg = lstrip (slice_from k current) ∧ seg ≠ [] ∧
           utf8_encodable seg = false ∧
           Transcriber.segment_index self' = S (Transcriber.segment_index self) ∧
           Transcriber.segment_files self' =
             <[S (Transcriber.segment_index self) := []]>
               (Transcriber.segment_files self) ∧
           Transcriber.transcript self' = Transcriber.transcript self ∧
           Transcriber.transcript_plain self' = Transcriber.transcript_plain self
     end).
Proof.
  split; [exact dedupe_result_shape|].
  intros self now stamp text current.
  unfold Transcriber._handle_committed_text.
  pose proof (dedupe_result_shape (Transcriber.reconcile self) now text) as H.
  cbv zeta in H. fold current in H.
  destruct (Reconcile._dedupe_committed_text _ now text) as [r emitted].
  simpl in H. destruct (is_empty emitted) eqn:He; [by left|].
  apply is_empty_false in He. destruct H as [->|(k & Hk & Hem)]; [done|].
  destruct (utf8_encodable emitted) eqn:Hutf.
  - right. exists k, emitted. split_and!; try done.
    + rewrite Hem. etrans; [apply lstrip_suffix | apply suffix_drop].
    + apply strip_infix.
  - exists k, emitted. by split_and!.
Qed.

(** ** The audio chunk queue *)

Section QueueFacts.
Context {A : Type}.
Implicit Types (q : PyQueue.t A) (x : A).

Lemma full_spec q :
  PyQueue.full q = true ↔
  (0 < PyQueue.maxsize q ∧ PyQueue.maxsize q ≤ Z.of_nat (PyQueue.qsize q))%Z.
Proof. unfold PyQueue.full. rewrite andb_true_iff, Z.ltb_lt, Z.leb_le. done. Qed.

Lemma put_nowait_room q x :
  PyQueue.full q = false →
  PyQueue.put_nowait q x = Returned (PyQueue.Queue (PyQueue.maxsize q) (PyQueue.items q ++ [x])).
Proof. unfold PyQueue.put_nowait. by intros ->. Qed.

Lemma create_within_capacity (maxsize : Z) :
  PyQueue.within_capacity (PyQueue.create (A:=A) maxsize).
Proof. unfold PyQueue.within_capacity, PyQueue.qsize. simpl. lia. Qed.

(** The statement never lets an exception out. *)
Lemma enqueue_drop_oldest_returns q x :
  ∃ q', Transcriber.enqueue_drop_oldest q x = Returned q'.
Proof.
  unfold Transcriber.enqueue_drop_oldest, PyQueue.put_nowait, PyQueue.get_nowait.
  destruct (PyQueue.full q); [|by eexists].
  destruct (PyQueue.items q); simpl.
  - destruct (PyQueue.full q); by eexists.
  - destruct (PyQueue.full _); by eexists.
Qed.

(** It adds the chunk at the tail, after evicting at most the oldest one,
    as long as the queue is within its capacity. *)
Lemma enqueue_drop_oldest_items q x :
  PyQueue.within_capacity q →
  ∃ q', Transcriber.enqueue_drop_oldest q x = Returned q' ∧
        PyQueue.maxsize q' = PyQueue.maxsize q ∧
        PyQueue.items q' =
          (if PyQueue.full q then tail (PyQueue.items q) else PyQueue.items q) ++ [x].
Proof.
  intros Hcap. unfold Transcriber.enqueue_drop_oldest.
  destruct (PyQueue.full q) eqn:Hfull.
  - unfold PyQueue.put_nowait at 1. rewrite Hfull.
    apply full_spec in Hfull. unfold PyQueue.get_nowait.
    destruct q as [m [|oldest rest]]; unfold PyQueue.qsize in *; simpl in *; [lia|].
    rewrite put_nowait_room; [by eexists|].
    apply not_true_is_false. rewrite full_spec.
    unfold PyQueue.within_capacity, PyQueue.qsize in *. simpl in *. lia.
  - rewrite put_nowait_room by done. by eexists.
Qed.

Lemma enqueue_drop_oldest_within_capacity q x q' :
  PyQueue.within_capacity q →
  Transcriber.enqueue_drop_oldest q x = Returned q' →
  PyQueue.within_capacity q'.
Proof.
  intros Hcap E.
  destruct (enqueue_drop_oldest_items q x Hcap) as (q1 & E1 & Hm & Hi).
  rewrite E in E1. injection E1 as <-.
  unfold PyQueue.within_capacity, PyQueue.qsize in *. rewrite Hm, Hi, length_app.
  destruct (PyQueue.full q) eqn:Hfull.
  - apply full_spec in Hfull. unfold PyQueue.qsize in Hfull.
    destruct (PyQueue.items q); simpl in *; lia.
  - apply not_true_iff_false in Hfull. rewrite full_spec in Hfull.
    unfold PyQueue.qsize in Hfull. simpl. lia.
Qed.

End QueueFacts.

(** C8: enqueuing a chunk into a full bounded queue evicts the single oldest
    entry, inserts the chunk at the tail and raises nothing; indeed the
    statement never raises.  Chunks A, B, C, D enqueued in order into a queue
    of capacity 3 leave B, C, D. *)
Theorem full_queue_drops_oldest :
  (∀ (A : Type) (q : PyQueue.t A) (x : A),
     (0 < PyQueue.maxsize q)%Z →
     Z.of_nat (PyQueue.qsize q) = PyQueue.maxsize q →
     ∃ oldest rest,
       PyQueue.items q = oldest :: rest ∧
       Transcriber.enqueue_drop_oldest q x =
         Returned (PyQueue.Queue (PyQueue.maxsize q) (rest ++ [x])))
  ∧
  (∀ (A : Type) (q : PyQueue.t A) (x : A),
     ∃ q', Transcriber.enqueue_drop_oldest q x = Returned q')
  ∧
  (∀ (A : Type) (a b c d : A),
     Transcriber.enqueue_all (PyQueue.create 3) [a; b; c; d] =
       Returned (PyQueue.Queue 3 [b; c; d])).
Proof.
  split; [|split].
  - intros A q x Hpos Hsize.
    destruct (enqueue_drop_oldest_items q x) as (q' & E & Hm & Hi).
    { right. lia. }
    assert (PyQueue.full q = true) as Hfull by (apply full_spec; lia).
    rewrite Hfull in Hi.
    destruct q as [m [|oldest rest]]; unfold PyQueue.qsize in *; simpl in *; [lia|].
    exists oldest, rest. split; [done|]. rewrite E. destruct q'; simpl in *. by subst.
  - intros A q x. apply enqueue_drop_oldest_returns.
  - intros A a b c d. reflexivity.
Qed.

(** The eviction on a full queue of capacity 2, with numbers for chunks. *)
Lemma full_queue_drops_oldest_witness :
  ∃ oldest rest,
    [10; 20] = oldest :: rest ∧
    Transcriber.enqueue_drop_oldest (PyQueue.Queue 2 [10; 20]) 30 =
      Returned (PyQueue.Queue 2 (rest ++ [30])).
Proof.
  apply (proj1 full_queue_drops_oldest nat (PyQueue.Queue 2 [10; 20]) 30).
  - vm_compute. reflexivity.
  - vm_compute. reflexivity.
Defined.

(** ** The audio capture callback *)

Section CallbackFacts.
Implicit Types (indata frame : list Z) (chunk_samples frames : nat).

Lemma tobytes_length frame : length (Pcm.tobytes frame) = 2 * length frame.
Proof.
  unfold Pcm.tobytes. induction frame as [|z frame IH]; [done|].
  rewrite bind_cons, length_app, IH. simpl. lia.
Qed.

(** The frame is the first [chunk_samples] samples of the input, then
    zeros. *)
Lemma fit_frame_shape chunk_samples indata frames :
  frames = length indata →
  Transcriber.fit_frame chunk_samples indata frames =
    (Pcm.to_int16 <$> take chunk_samples indata)
      ++ replicate (chunk_samples - length indata) 0%Z.
Proof.
  intros ->. unfold Transcriber.fit_frame. case_bool_decide as Hlen.
  - destruct (Nat.min_spec (length indata) chunk_samples) as [[Hlt ->]|[Hge ->]].
    + by rewrite !take_ge by lia.
    + by replace (chunk_samples - chunk_samples)
        with (chunk_samples - length indata) by lia.
  - rewrite take_ge by lia.
    replace (chunk_samples - length indata) with 0 by lia.
    by rewrite app_nil_r.
Qed.

Lemma fit_frame_length chunk_samples indata frames :
  frames = length indata →
  length (Transcriber.fit_frame chunk_samples indata frames) = chunk_samples.
Proof.
  intros H. rewrite fit_frame_shape by done.
  rewrite length_app, length_fmap, length_take, length_replicate. lia.
Qed.

End CallbackFacts.

(** C10: for every input frame handed to the capture callback (its [frames]
    argument being the length of the input, the queue within its capacity),
    the chunk has exactly [chunk_samples] samples: the first [chunk_samples]
    samples of the input followed by zeros up to that size, so a short frame
    is zero-padded and a long one cut to its first [chunk_samples] samples.
    That one chunk, and nothing of the excess, is what is appended to the
    audio sink and put at the tail of the queue. *)
Theorem callback_chunk_has_configured_size
    (self : Transcriber.t) (indata : list Z) (frames : nat) :
  frames = length indata →
  PyQueue.within_capacity (Transcriber.audio_queue self) →
  let n := Transcriber.chunk_samples self in
  let chunk := Transcriber.fit_frame n indata frames in
  length chunk = n ∧
  chunk = (Pcm.to_int16 <$> take n indata) ++ replicate (n - length indata) 0%Z ∧
  length (Pcm.tobytes chunk) = 2 * n ∧
  ∃ self' kept,
    Transcriber._audio_callback self indata frames = Returned self' ∧
    Transcriber.stream_wav self' = Transcriber.stream_wav self ++ Pcm.tobytes chunk ∧
    kept `suffix_of` PyQueue.items (Transcriber.audio_queue self) ∧
    PyQueue.items (Transcriber.audio_queue self') = kept ++ [Pcm.tobytes chunk].
Proof.
  intros Hframes Hcap n chunk.
  assert (length chunk = n) as Hlen by by apply fit_frame_length.
  split_and!; [done | by apply fit_frame_shape | by rewrite tobytes_length, Hlen |].
  unfold Transcriber._audio_callback. fold n chunk.
  destruct (enqueue_drop_oldest_items
              (Transcriber.audio_queue self) (Pcm.tobytes chunk) Hcap)
    as (q' & -> & _ & Hitems).
  eexists _, _. split_and!; [done | done | | exact Hitems].
  destruct (PyQueue.full _); [|done].
  destruct (PyQueue.items (Transcriber.audio_queue self)) as [|oldest rest]; simpl.
  - apply suffix_nil.
  - by apply suffix_cons_r.
Qed.

(** A frame of five samples against a chunk size of three, a frame of two
    samples against the same size, and the callback on the first of them. *)
Lemma callback_chunk_has_configured_size_witness :
  Transcriber.fit_frame 3 [7; -7; 300; 4; 5]%Z 5 = [7; -7; 300]%Z
  ∧ Transcriber.fit_frame 3 [7; -7]%Z 2 = [7; -7; 0]%Z
  ∧ ∃ self' kept,
      Transcriber._audio_callback (Transcriber.init 3 200 ∅) [7; -7; 300; 4; 5]%Z 5
        = Returned self' ∧
      Transcriber.stream_wav self' =
        [] ++ Pcm.tobytes (Transcriber.fit_frame 3 [7; -7; 300; 4; 5]%Z 5) ∧
      kept `suffix_of` [] ∧
      PyQueue.items (Transcriber.audio_queue self') =
        kept ++ [Pcm.tobytes (Transcriber.fit_frame 3 [7; -7; 300; 4; 5]%Z 5)].
Proof.
  split; [|split].
  - apply (callback_chunk_has_configured_size
             (Transcriber.init 3 200 ∅) [7; -7; 300; 4; 5]%Z 5).
    + vm_compute. reflexivity.
    + right. vm_compute. discriminate.
  - apply (callback_chunk_has_configured_size
             (Transcriber.init 3 200 ∅) [7; -7]%Z 2).
    + vm_compute. reflexivity.
    + right. vm_compute. discriminate.
  - apply (callback_chunk_has_configured_size
             (Transcriber.init 3 200 ∅) [7; -7; 300; 4; 5]%Z 5).
    + vm_compute. reflexivity.
    + right. vm_compute. discriminate.
Defined.

(** ** The websocket handler *)

Section HandlerFacts.
Import App.

Lemma send_json_usable (w : websocket) (m : server_msg) :
  usable w = true →
  send_json w m =
    Returned (WebSocket (sent w ++ [m]) (closed w) (one_less (peer_takes w))).
Proof. unfold send_json. by intros ->. Qed.

Lemma close_usable (w : websocket) :
  usable w = true →
  close w = Returned (WebSocket (sent w) true (one_less (peer_takes w))).
Proof. unfold close. by intros ->. Qed.

Lemma takes_usable (n : nat) (w : websocket) :
  takes (S n) w = true → usable w = true.
Proof.
  unfold takes, usable. destruct (closed w); [done|]. simpl.
  by destruct (peer_takes w) as [[|k]|].
Qed.

(** A send uses up one of the operations the browser is there for. *)
Lemma takes_after_send (n : nat) (w : websocket) (m : server_msg) :
  takes (S n) w = true →
  takes n (WebSocket (sent w ++ [m]) (closed w) (one_less (peer_takes w))) = true.
Proof.
  unfold takes. simpl. destruct (closed w); [done|]. simpl.
  by destruct (peer_takes w) as [[|k]|].
Qed.

Lemma write_metadata_lookup (id : str) (md : metadata) (fs0 : gmap str meeting_dir) :
  ∃ d, write_metadata id md fs0 !! id = Some d ∧ metadata_json d = Some (Doc md).
Proof. unfold write_metadata, set_metadata. eexists. by rewrite lookup_insert_eq. Qed.

(** Whenever the upstream connect raises after a well-formed start, with a
    browser that is there for the three socket operations of that path, the
    handler returns with the error sent and the socket closed, and the
    meeting folder it created keeps its metadata at "recording". *)
Lemma connect_failure_outcome (w : world) (env : run) (msg : Json.t) (exc : str) :
  first_message env = Message msg →
  well_formed_start msg →
  takes 3 (ws w) = true →
  (∀ o, connect env o = Raised exc) →
  ∃ w',
    ws_transcribe w env = Finished w' ∧
    dangling (fs w') (new_meeting_id env) ∧
    sent (ws w') =
      sent (ws w) ++ [session_started (new_meeting_id env);
                      error (ConnectionFailed exc)] ∧
    closed (ws w') = true.
Proof.
  intros Hfirst (items & -> & Hty) Huse Hconn.
  unfold ws_transcribe, start_phase, open_session. rewrite Hfirst.
  simpl Json.get. rewrite Hty.
  change (is_start (Some (Json.Str (lit "start")))) with true. cbv iota beta.
  simpl negb. cbv iota.
  rewrite send_json_usable by by eapply takes_usable.
  rewrite Hconn.
  pose proof (takes_after_send 2 _ (session_started (new_meeting_id env)) Huse) as H2.
  rewrite send_json_usable by by eapply takes_usable.
  pose proof (takes_after_send 1 _ (error (ConnectionFailed exc)) H2) as H1.
  rewrite close_usable by by eapply takes_usable.
  eexists. split; [done|]. cbn [fs ws sent closed].
  split_and!; [|by rewrite <- app_assoc|done].
  destruct (write_metadata_lookup (new_meeting_id env)
              (Metadata (default (Json.Str (lit "Untitled Meeting"))
                                 (Json.assoc (lit "title") items))
                        (started_iso env) recording 0 None)
              (mkdir (new_meeting_id env) (fs w))) as (d & Hd & Hmd).
  exists d. eexists. split_and!; [exact Hd | exact Hmd | done].
Qed.

(** The folder is left so whatever becomes of the socket: no exit of the
    connect-failure path rewrites the metadata. *)
Lemma connect_failure_dangling (w : world) (env : run) (msg : Json.t) (exc : str) :
  first_message env = Message msg →
  well_formed_start msg →
  (∀ o, connect env o = Raised exc) →
  dangling (fs (Observe.world_of (ws_transcribe w env))) (new_meeting_id env).
Proof.
  intros Hfirst (items & -> & Hty) Hconn.
  unfold ws_transcribe, start_phase, open_session. rewrite Hfirst.
  simpl Json.get. rewrite Hty.
  change (is_start (Some (Json.Str (lit "start")))) with true. cbv iota beta.
  simpl negb. cbv iota.
  match goal with
  | |- context [write_metadata ?id ?md ?fs0] =>
      destruct (write_metadata_lookup id md fs0) as (d & Hd & Hmd);
      assert (dangling (write_metadata id md fs0) id) as Hdang
        by (exists d, md; by split_and!);
      generalize dependent (write_metadata id md fs0)
  end.
  intros fs1 _ Hdang.
  destruct (send_json (ws w) _) as [ws1|e1]; [|done].
  rewrite Hconn.
  destruct (send_json ws1 _) as [ws2|e2]; [|done].
  by destruct (close ws2).
Qed.

End HandlerFacts.

(** C1: a run of the handler in which the upstream connect raises after a
    well-formed start request.  The error event is sent to the browser, and
    the meeting folder created before the connect is left with a metadata
    record whose status is "recording". *)
Theorem connect_failure_leaves_recording_session :
  let id := lit "20260101_090000_abc123" in
  let start := Json.Obj [(lit "type", Json.Str (lit "start"));
                         (lit "title", Json.Str (lit "Standup"))] in
  let env :=
    App.Run (App.Message start) (λ _, Raised (lit "timed out")) id
            (lit "2026-01-01T09:00:00") [] 0 in
  let w0 := App.World ∅ (App.WebSocket [] false None) in
  ∃ w',
    App.ws_transcribe w0 env = App.Finished w' ∧
    App.dangling (App.fs w') id ∧
    App.sent (App.ws w') =
      [App.session_started id; App.error (App.ConnectionFailed (lit "timed out"))] ∧
    App.closed (App.ws w') = true.
Proof.
  intros id start env w0.
  apply (connect_failure_outcome w0 env start (lit "timed out")); try done.
  eexists. split; [done|]. by vm_compute.
Qed.

(** ** Duplicated commits *)

Section Duplicates.
Import App.



End Duplicates.




(** * Further properties of the code *)

(** ** Trimming *)

Section TrimFacts.
Import Observe.
Implicit Types s t : str.

Lemma no_leading_space_head s :
  no_leading_space s ↔ match head s with Some c => isspace c = false | None => True end.
Proof. by destruct s. Qed.

Lemma lstrip_blank s : blank s → lstrip s = [].
Proof. induction 1 as [|c s Hc _ IH]; simpl; [done|]. by rewrite Hc. Qed.

Lemma strip_blank s : blank s → strip s = [].
Proof.
  intros H. unfold strip, rstrip.
  rewrite (lstrip_blank (reverse s)) by by apply Forall_reverse. done.
Qed.

Lemma rstrip_no_trailing_space s : no_trailing_space (rstrip s).
Proof.
  unfold no_trailing_space, rstrip. rewrite last_reverse.
  apply no_leading_space_head, lstrip_no_leading_space.
Qed.

Lemma suffix_no_trailing_space s t :
  t `suffix_of` s → no_trailing_space s → no_trailing_space t.
Proof.
  intros [u ->]. unfold no_trailing_space. rewrite last_app.
  by destruct (last t).
Qed.

Lemma rstrip_id s : no_trailing_space s → rstrip s = s.
Proof.
  intros H. unfold rstrip. rewrite lstrip_id, reverse_involutive; [done|].
  apply no_leading_space_head. by rewrite head_reverse.
Qed.

Lemma trimmed_by_ends s : no_leading_space s → no_trailing_space s → trimmed s.
Proof. intros H1 H2. unfold trimmed, strip. by rewrite rstrip_id, lstrip_id. Qed.

Lemma strip_no_trailing_space s : no_trailing_space (strip s).
Proof.
  apply (suffix_no_trailing_space (rstrip s)).
  - apply lstrip_suffix.
  - apply rstrip_no_trailing_space.
Qed.

(** Trimming twice is trimming once. *)
Lemma strip_trimmed s : trimmed (strip s).
Proof.
  apply trimmed_by_ends; [apply strip_no_leading_space | apply strip_no_trailing_space].
Qed.

(** A left-trimmed tail of a trimmed string is trimmed. *)
Lemma lstrip_tail_trimmed s k : trimmed s → trimmed (lstrip (slice_from k s)).
Proof.
  intros Hs. apply trimmed_by_ends; [apply lstrip_no_leading_space|].
  apply (suffix_no_trailing_space s).
  - etrans; [apply lstrip_suffix | apply suffix_drop].
  - rewrite <- Hs. apply strip_no_trailing_space.
Qed.

End TrimFacts.

(** ** The reconciliation engine, call by call *)

Section EngineCalls.
Import Reconcile Observe.
Implicit Types (st : state) (now : float) (text : option str).

(** A call leaves the state alone or records the trimmed text and the
    clock reading; it records them whenever it returns something. *)
Lemma dedupe_state_cases st now text :
  let current := strip (or_empty text) in
  let r := _dedupe_committed_text st now text in
  (r.1 = st ∧ r.2 = []) ∨ (r.1 = State current now ∧ current ≠ []).
Proof.
  intros current. unfold _dedupe_committed_text. cbv zeta. fold current.
  destruct (is_empty current) eqn:HC; [by left|].
  apply is_empty_false in HC.
  repeat (match goal with
          | |- context [if ?b then _ else _] =>
              lazymatch b with
              | (0 <? _) => fail
              | _ => destruct b
              end
          end; simpl; try (by left); try (by right)).
Qed.

End EngineCalls.

(** X1: a committed text that is [None], empty or made of whitespace only
    is dropped: the engine returns the empty string and keeps its state, and
    the handler persists nothing and changes nothing, whatever the state and
    the clock. *)
Theorem blank_text_is_ignored
    (self : Transcriber.t) (now : float) (stamp : str) (text : option str) :
  Observe.blank (or_empty text) →
  Reconcile._dedupe_committed_text (Transcriber.reconcile self) now text =
    (Transcriber.reconcile self, []) ∧
  Transcriber._handle_committed_text self now stamp text = Transcriber.Handled self.
Proof.
  intros Hblank.
  assert (Reconcile._dedupe_committed_text (Transcriber.reconcile self) now text =
            (Transcriber.reconcile self, [])) as E.
  { unfold Reconcile._dedupe_committed_text. cbv zeta.
    by rewrite (strip_blank _ Hblank). }
  split; [done|].
  unfold Transcriber._handle_committed_text. rewrite E. simpl.
  by destruct self.
Qed.

(** A text of a tab, two spaces and an ideographic space, and no text. *)
Lemma blank_text_is_ignored_witness :
  let self := Transcriber.set_reconcile (Transcriber.init 960 200 ∅)
                (Reconcile.State (lit "hello") 100%float) in
  Transcriber._handle_committed_text self 101%float (lit "09:00:01")
    (Some [9; 32; 32; 12288]%N) = Transcriber.Handled self
  ∧ Transcriber._handle_committed_text self 101%float (lit "09:00:01") None =
      Transcriber.Handled self.
Proof.
  intros self. split.
  - apply (blank_text_is_ignored self 101%float (lit "09:00:01")
             (Some [9; 32; 32; 12288]%N)).
    vm_compute. repeat constructor.
  - apply (blank_text_is_ignored self 101%float (lit "09:00:01") None).
    vm_compute. constructor.
Defined.

(** X2: whatever the engine returns has no whitespace at either end, so no
    segment text begins or ends with whitespace. *)
Theorem emitted_text_is_trimmed
    (st : Reconcile.state) (now : float) (text : option str) :
  Observe.trimmed (Reconcile._dedupe_committed_text st now text).2.
Proof.
  destruct (dedupe_result_shape st now text) as [->|(k & _ & ->)]; [done|].
  apply lstrip_tail_trimmed, strip_trimmed.
Qed.

(** X3: when the engine returns a non-empty string, that string is a suffix
    of the trimmed text, and the state now holds the trimmed text and the
    clock reading of this call. *)
Theorem emission_refreshes_state
    (st : Reconcile.state) (now : float) (text : option str) :
  let current := strip (or_empty text) in
  let r := Reconcile._dedupe_committed_text st now text in
  r.2 ≠ [] →
  r.1 = Reconcile.State current now ∧ r.2 `suffix_of` current.
Proof.
  intros current r Hne. subst r. split.
  - destruct (dedupe_state_cases st now text) as [[_ H]|[H _]]; done.
  - destruct (dedupe_result_shape st now text) as [H|(k & _ & H)]; [done|].
    rewrite H. etrans; [apply lstrip_suffix | apply suffix_drop].
Qed.

(** An extension within the window. *)
Lemma emission_refreshes_state_witness :
  let r := Reconcile._dedupe_committed_text
             (Reconcile.State (lit "Good morning") 100%float) 101%float
             (Some (lit " Good morning everyone ")) in
  r.1 = Reconcile.State (lit "Good morning everyone") 101%float ∧
  r.2 `suffix_of` lit "Good morning everyone".
Proof.
  apply (emission_refreshes_state
           (Reconcile.State (lit "Good morning") 100%float) 101%float
           (Some (lit " Good morning everyone "))).
  vm_compute. discriminate.
Defined.

(** ** The reconciliation engine over a run of commits *)

Section EngineRuns.
Import Reconcile Observe.

(** A text that the previous one begins with, within the window: nothing
    comes out and the state stays. *)
Lemma dedupe_prefix_of_previous (st : state) (now : float) (text : option str) :
  strip (or_empty text) `prefix_of` last_committed_text st →
  gap_exceeded now st = false →
  _dedupe_committed_text st now text = (st, []).
Proof.
  intros Hpre Hgap.
  destruct (decide (strip (or_empty text) = [])) as [HC|HC].
  { unfold _dedupe_committed_text. cbv zeta. by rewrite HC. }
  assert (last_committed_text st ≠ []) as HP.
  { intros E. rewrite E in Hpre. by apply prefix_nil_inv in Hpre. }
  rewrite dedupe_within_window by done. cbv zeta.
  destruct (eqb _ _) eqn:Heq; [done|]. apply eqb_false in Heq.
  destruct (startswith (strip _) _) eqn:Hext.
  { apply startswith_prefix in Hext. destruct Heq.
    apply (anti_symm prefix); done. }
  apply startswith_prefix in Hpre. by rewrite Hpre.
Qed.

(** One step of a growing commit. *)
Lemma extension_step (st : state) (now : float) (text : option str) (suffix : str) :
  last_committed_text st ≠ [] → suffix ≠ [] → no_leading_space suffix →
  strip (or_empty text) = last_committed_text st ++ suffix →
  gap_exceeded now st = false →
  _dedupe_committed_text st now text =
    (State (last_committed_text st ++ suffix) now, suffix).
Proof.
  intros HP Hs Hlead HC Hgap.
  rewrite dedupe_within_window;
    [|rewrite HC; by destruct (last_committed_text st)|done..].
  cbv zeta. rewrite HC.
  assert (last_committed_text st ++ suffix ≠ last_committed_text st) as Hne.
  { intros E. apply (f_equal length) in E. rewrite length_app in E.
    destruct suffix; [done | simpl in E; lia]. }
  apply eqb_false in Hne. rewrite Hne, startswith_app.
  unfold slice_from. by rewrite drop_app_length, lstrip_id.
Qed.

End EngineRuns.

(** X4: over any run of commits, from any state, the engine returns one
    string per commit, each without whitespace at its ends, and the state at
    the end is the state at the start or holds the trimmed, non-empty text
    of one of the commits together with the clock reading of that commit. *)
Theorem run_state_records_a_commit
    (st : Reconcile.state) (events : list (float * option str)) :
  let r := Runs.dedupe_all st events in
  length r.2 = length events ∧
  Forall Observe.trimmed r.2 ∧
  (r.1 = st ∨
   ∃ now text, (now, text) ∈ events ∧ strip (or_empty text) ≠ [] ∧
               r.1 = Reconcile.State (strip (or_empty text)) now).
Proof.
  revert st. induction events as [|[now text] rest IH]; intros st; simpl.
  { split_and!; [done | constructor | by left]. }
  pose proof (dedupe_state_cases st now text) as Hst.
  pose proof (emitted_shape := dedupe_result_shape st now text).
  cbv zeta in Hst.
  destruct (Reconcile._dedupe_committed_text st now text) as [st1 out] eqn:E.
  specialize (IH st1). cbv zeta in IH.
  destruct (Runs.dedupe_all st1 rest) as [st2 outs]. simpl in *.
  destruct IH as (Hlen & Htrim & Hfinal). split_and!.
  - by rewrite Hlen.
  - constructor; [|done].
    destruct emitted_shape as [->|(k & _ & ->)]; [done|].
    apply lstrip_tail_trimmed, strip_trimmed.
  - destruct Hfinal as [->|(now' & text' & Hin & Hne & ->)].
    + destruct Hst as [[-> _]|[-> Hne]]; [by left|].
      right. exists now, text. split_and!; [left | done | done].
    + right. exists now', text'. split_and!; [by right | done | done].
Qed.

(** X5: a run of commits that each repeat the remembered text or a prefix of
    it (a re-segmentation that shrinks), each within the gap window of the
    remembered time, returns nothing and leaves the state as it was; the
    remembered time is not refreshed along the way. *)
Theorem repeats_within_window_change_nothing
    (st : Reconcile.state) (events : list (float * option str)) :
  Forall (λ e, strip (or_empty e.2) `prefix_of` Reconcile.last_committed_text st ∧
               Reconcile.gap_exceeded e.1 st = false) events →
  Runs.dedupe_all st events = (st, replicate (length events) []).
Proof.
  induction 1 as [|[now text] rest [Hpre Hgap] _ IH]; simpl; [done|].
  simpl in Hpre, Hgap. rewrite dedupe_prefix_of_previous by done.
  by rewrite IH.
Qed.

(** The same text three and seven seconds after its commit, then its first
    word alone. *)
Lemma repeats_within_window_change_nothing_witness :
  let st := Reconcile.State (lit "see you tomorrow") 100%float in
  Runs.dedupe_all st
    [(103%float, Some (lit "see you tomorrow"));
     (107%float, Some (lit " see you tomorrow "));
     (107.5%float, Some (lit "see"))]
  = (st, [[]; []; []]).
Proof.
  intros st.
  apply (repeats_within_window_change_nothing st
           [(103%float, Some (lit "see you tomorrow"));
            (107%float, Some (lit " see you tomorrow "));
            (107.5%float, Some (lit "see"))]).
  repeat constructor; simpl;
    try (apply startswith_prefix; vm_compute; reflexivity).
Defined.

(** X6: in the fallback case the engine cuts nothing from the front of the
    text, or between 20 and 220 characters; what it cuts is what the previous
    text ends with, and it never cuts more than either text holds. *)
Theorem fallback_cut_is_bounded
    (st : Reconcile.state) (now : float) (text : option str) :
  let P := Reconcile.last_committed_text st in
  let C := strip (or_empty text) in
  C ≠ [] → P ≠ [] → Reconcile.gap_exceeded now st = false →
  C ≠ P → ¬ P `prefix_of` C → ¬ C `prefix_of` P →
  ∃ k,
    (k = 0 ∨ (20 ≤ k ≤ 220 ∧ k ≤ length P ∧ k ≤ length C ∧
              slice_to k C `suffix_of` P)) ∧
    Reconcile._dedupe_committed_text st now text =
      (Reconcile.State C now, if 0 <? k then lstrip (slice_from k C) else C).
Proof.
  intros P C HC HP Hgap Hne H1 H2.
  rewrite dedupe_fallback by done. cbv zeta. fold P C.
  exists (Reconcile.find_overlap P C). split; [|done].
  destruct (find_overlap_range P C) as [H|[Hr Heq]]; [by left | right].
  unfold Reconcile.max_overlap in Hr. split_and!; try lia.
  rewrite <- Heq. apply slice_last_suffix.
Qed.

(** The overlap example of the specification, read as a bound. *)
Lemma fallback_cut_is_bounded_witness :
  let P := lit "I think we should ship the release today" in
  let C := lit "ship the release today and notify the team" in
  ∃ k,
    (k = 0 ∨ (20 ≤ k ≤ 220 ∧ k ≤ length P ∧
              k ≤ length (strip (or_empty (Some C))) ∧
              slice_to k (strip (or_empty (Some C))) `suffix_of` P)) ∧
    Reconcile._dedupe_committed_text (Reconcile.State P 100%float) 103.5%float (Some C) =
      (Reconcile.State (strip (or_empty (Some C))) 103.5%float,
       if 0 <? k then lstrip (slice_from k (strip (or_empty (Some C))))
       else strip (or_empty (Some C))).
Proof.
  intros P C.
  apply (fallback_cut_is_bounded (Reconcile.State P 100%float) 103.5%float (Some C)).
  - vm_compute. discriminate.
  - vm_compute. discriminate.
  - vm_compute. reflexivity.
  - vm_compute. discriminate.
  - apply startswith_self_false. vm_compute. reflexivity.
  - apply startswith_self_false. vm_compute. reflexivity.
Defined.

(** X7: a commit that grows step by step, each step within the gap window
    of the one before and adding a non-empty suffix that does not begin with
    whitespace, makes the engine return exactly the added suffixes, in
    order: the remembered text at the end is the remembered text at the
    start followed by everything returned, nothing lost and nothing twice. *)
Theorem growing_commit_emits_each_suffix
    (st : Reconcile.state) (steps : list (float * str)) :
  Reconcile.last_committed_text st ≠ [] →
  Runs.extends_ok st steps →
  let r := Runs.dedupe_all st (Runs.extensions (Reconcile.last_committed_text st) steps) in
  r.2 = steps.*2 ∧
  Reconcile.last_committed_text r.1 =
    Reconcile.last_committed_text st ++ concat r.2.
Proof.
  revert st. induction steps as [|[now suffix] rest IH]; intros st HP Hok; simpl.
  { by rewrite app_nil_r. }
  destruct Hok as (Hs & Hlead & Htrim & Hgap & Hrest).
  rewrite (extension_step st now (Some (Reconcile.last_committed_text st ++ suffix)) suffix)
    by done.
  specialize (IH (Reconcile.State (Reconcile.last_committed_text st ++ suffix) now)).
  simpl in IH. destruct IH as [IH1 IH2]; [by destruct (Reconcile.last_committed_text st)|done|].
  destruct (Runs.dedupe_all _ _) as [st2 outs]. simpl in *.
  split; [by rewrite IH1|]. by rewrite IH2, app_assoc.
Qed.

(** "meet" growing to "meeting" and then to "meetings". *)
Lemma growing_commit_emits_each_suffix_witness :
  let st := Reconcile.State (lit "meet") 100%float in
  let r := Runs.dedupe_all st
             (Runs.extensions (lit "meet") [(101%float, lit "ing"); (104%float, lit "s")]) in
  r.2 = [lit "ing"; lit "s"] ∧
  Reconcile.last_committed_text r.1 = lit "meet" ++ concat r.2.
Proof.
  intros st.
  apply (growing_commit_emits_each_suffix st [(101%float, lit "ing"); (104%float, lit "s")]).
  - vm_compute. discriminate.
  - simpl. split_and!; try done; vm_compute; reflexivity.
Defined.

(** ** What the handler persists over a run *)

Section Persistence.
Import Transcriber Runs.

Lemma encodable_app (s t : str) :
  utf8_encodable (s ++ t) = utf8_encodable s && utf8_encodable t.
Proof. apply forallb_app. Qed.

Lemma encodable_suffix (s t : str) :
  t `suffix_of` s → utf8_encodable s = true → utf8_encodable t = true.
Proof.
  intros [u ->]. rewrite encodable_app. by intros [_ ?]%andb_prop.
Qed.

Lemma encodable_strip (s : str) :
  utf8_encodable s = true → utf8_encodable (strip s) = true.
Proof.
  destruct (strip_infix s) as (a & b & E). rewrite E at 1.
  rewrite !encodable_app. by intros [_ [? _]%andb_prop]%andb_prop.
Qed.

(** What the engine returns of a text without surrogates has none. *)
Lemma emitted_encodable (st : Reconcile.state) (now : float) (text : option str) :
  utf8_encodable (or_empty text) = true →
  utf8_encodable (Reconcile._dedupe_committed_text st now text).2 = true.
Proof.
  intros H. destruct (dedupe_result_shape st now text) as [->|(k & _ & ->)]; [done|].
  apply (encodable_suffix (strip (or_empty text))); [|by apply encodable_strip].
  etrans; [apply lstrip_suffix | apply suffix_drop].
Qed.

Lemma init_consistent (n : nat) (m : Z) (stale : gmap nat str) :
  persisted_consistent stale (init n m stale).
Proof.
  exists []. simpl. split_and!; try done.
  intros i. lia.
Qed.

Lemma handle_consistent (stale : gmap nat str) (self : t)
    (now : float) (stamp : str) (text : option str) :
  persisted_consistent stale self →
  persisted_consistent stale (state_of (_handle_committed_text self now stamp text)).
Proof.
  intros (recs & Htr & Hplain & Hrise & Hrecs & Hfiles & Hout).
  unfold _handle_committed_text.
  destruct (Reconcile._dedupe_committed_text _ now text) as [r emitted].
  destruct (is_empty emitted) eqn:He.
  { exists recs. by destruct self. }
  apply is_empty_false in He.
  destruct (utf8_encodable emitted); simpl.
  - exists (recs ++ [Persisted stamp emitted (S (segment_index self))]).
    simpl. split_and!.
    + by rewrite bind_app, Htr.
    + by rewrite fmap_app, Hplain.
    + intros i j p q Hij Hi Hj.
      apply lookup_app_Some in Hj as [Hj|[Hge Hj]].
      * rewrite lookup_app_l in Hi by (apply lookup_lt_Some in Hj; lia).
        by eapply Hrise.
      * apply list_lookup_singleton_Some in Hj as [Hj <-]. simpl.
        rewrite lookup_app_l in Hi by lia.
        rewrite Forall_lookup in Hrecs. destruct (Hrecs i p Hi) as (_ & ? & _). lia.
    + apply Forall_app. split.
      * eapply Forall_impl; [exact Hrecs|]. intros p (Hne & Hidx & Hfile).
        split_and!; [done | lia | lia |].
        rewrite lookup_insert_ne by lia. done.
      * constructor; [|constructor]. simpl.
        split_and!; [done | lia | lia | apply lookup_insert_eq].
    + intros i Hi. destruct (decide (i = S (segment_index self))) as [->|Hne].
      * left. eexists. split; [apply elem_of_app; right; by left | done].
      * destruct (Hfiles i) as [(p & Hp & Hpi)|Hempty]; [lia | left | right].
        -- exists p. split; [apply elem_of_app; by left | done].
        -- by rewrite lookup_insert_ne.
    + intros i Hi. rewrite lookup_insert_ne by lia. apply Hout. lia.
  - exists recs. simpl. split_and!; try done.
    + eapply Forall_impl; [exact Hrecs|]. intros p (Hne & Hidx & Hfile).
      split_and!; [done | lia | lia |].
      rewrite lookup_insert_ne by lia. done.
    + intros i Hi. destruct (decide (i = S (segment_index self))) as [->|Hne].
      * right. apply lookup_insert_eq.
      * destruct (Hfiles i) as [Hp|Hempty]; [lia | by left | right].
        by rewrite lookup_insert_ne.
    + intros i Hi. rewrite lookup_insert_ne by lia. apply Hout. lia.
Qed.

Lemma init_in_step (n : nat) (m : Z) (stale : gmap nat str) :
  persisted_in_step (init n m stale).
Proof. unfold persisted_in_step. simpl. split_and!; try done. Qed.

Lemma handle_in_step (self : t) (now : float) (stamp : str) (text : option str) :
  utf8_encodable (or_empty text) = true →
  persisted_in_step self →
  persisted_in_step (state_of (_handle_committed_text self now stamp text)).
Proof.
  intros Henc (Hidx & Hlen & Hplain). unfold _handle_committed_text.
  pose proof (emitted_encodable (reconcile self) now text Henc) as Hem.
  destruct (Reconcile._dedupe_committed_text _ now text) as [r emitted].
  simpl in Hem.
  destruct (is_empty emitted) eqn:He.
  { unfold persisted_in_step. by destruct self. }
  apply is_empty_false in He. rewrite Hem.
  unfold persisted_in_step. simpl. split_and!.
  - rewrite length_app. simpl. lia.
  - rewrite length_app. simpl. lia.
  - intros i seg Hi.
    apply lookup_app_Some in Hi as [Hi|[Hge Hi]].
    + destruct (Hplain i seg Hi) as [Hne Hfile]. split; [done|].
      apply lookup_lt_Some in Hi.
      assert (S (segment_index self) ≠ S i) as Hfresh by (unfold str in *; lia).
      by rewrite lookup_insert_ne.
    + assert (i = length (transcript_plain self)) as ->.
      { apply lookup_lt_Some in Hi. simpl in Hi. unfold str in *. lia. }
      rewrite Nat.sub_diag in Hi. injection Hi as <-. split; [done|].
      rewrite Hidx. apply lookup_insert_eq.
Qed.

End Persistence.

(** X8: after any run of committed events, in a session folder that may
    hold the segment files of an earlier run under the same name, the
    persisted artefacts agree: the transcript and the plain transcript list
    the same segments in the same order, three transcript lines each, by
    rising file number; each segment has a non-empty text, and its file
    holds that text followed by a newline; every file numbered 1 to the
    counter is the file of a listed segment or is empty, its write having
    failed; and every other file is as the earlier run left it.  When no
    committed text holds a surrogate, no write fails: the counter is the
    number of entries of the plain transcript, the transcript has three
    lines per segment, and the i-th plain entry is a non-empty text whose
    file, number i+1, holds it followed by a newline. *)
Theorem persisted_artefacts_agree
    (n : nat) (m : Z) (stale : gmap nat str)
    (events : list (float * str * option str)) :
  let self := Runs.handle_all (Transcriber.init n m stale) events in
  Runs.persisted_consistent stale self ∧
  (Forall (λ e, utf8_encodable (or_empty e.2) = true) events →
   Runs.persisted_in_step self).
Proof.
  cbv zeta. split.
  - generalize (init_consistent n m stale). generalize (Transcriber.init n m stale).
    induction events as [|[[now stamp] text] rest IH]; intros self Hself; simpl; [done|].
    by apply IH, handle_consistent.
  - intros Hev. generalize (init_in_step n m stale).
    generalize (Transcriber.init n m stale).
    induction Hev as [|[[now stamp] text] rest Henc _ IH]; intros self Hself; simpl;
      [done|].
    by apply IH, handle_in_step.
Qed.

(** X9: the service may deliver both committed events for one commit; in
    either order, and whichever of the two the configuration consumes, the
    pair has the effect of handling the text once. *)
Theorem both_committed_events_handled_once
    (timestamped_first include_timestamps : bool) (self : Transcriber.t)
    (now : float) (stamp : str) (data : Json.t) :
  Runs.deliver_both timestamped_first include_timestamps self now stamp data =
    Runs.handle_data self now stamp data.
Proof.
  unfold Runs.deliver_both, Runs._on_committed_transcript,
    Runs._on_committed_with_timestamps.
  destruct timestamped_first, include_timestamps; simpl;
    by destruct (Runs.handle_data self now stamp data).
Qed.

(** ** The queue and the audio sink over a run of callbacks *)

Section QueueRuns.
Context {A : Type}.
Implicit Types (q : PyQueue.t A) (xs : list A).

Lemma enqueue_all_items q xs :
  PyQueue.within_capacity q →
  Transcriber.enqueue_all q xs =
    Returned (PyQueue.Queue (PyQueue.maxsize q)
                (Runs.newest (PyQueue.maxsize q) (PyQueue.items q ++ xs))).
Proof.
  revert q. induction xs as [|x xs IH]; intros q Hcap; simpl.
  - rewrite app_nil_r. unfold Runs.newest.
    destruct (Z.ltb_spec 0 (PyQueue.maxsize q)) as [Hpos|Hnon]; [|by destruct q].
    destruct Hcap as [Hcap|Hcap]; [lia|]. unfold PyQueue.qsize in Hcap.
    replace (length (PyQueue.items q) - Z.to_nat (PyQueue.maxsize q)) with 0 by lia.
    by destruct q.
  - destruct (enqueue_drop_oldest_items q x Hcap) as (q' & E & Hm & Hi).
    rewrite E. rewrite IH by by eapply enqueue_drop_oldest_within_capacity.
    rewrite Hm, Hi. f_equal. f_equal. unfold Runs.newest.
    destruct (PyQueue.full q) eqn:Hfull.
    + apply full_spec in Hfull. unfold PyQueue.qsize in Hfull.
      destruct Hcap as [Hcap|Hcap]; [lia|]. unfold PyQueue.qsize in Hcap.
      destruct (Z.ltb_spec 0 (PyQueue.maxsize q)) as [_|?]; [|lia].
      destruct (PyQueue.items q) as [|oldest rest] eqn:Hitems; simpl in *; [lia|].
      rewrite <- !app_assoc. simpl.
      replace (S (length (rest ++ x :: xs)) - Z.to_nat (PyQueue.maxsize q))
        with (S (length (rest ++ x :: xs) - Z.to_nat (PyQueue.maxsize q))); [done|].
      rewrite length_app. simpl. lia.
    + by rewrite <- app_assoc.
Qed.

End QueueRuns.

Section CallbackRuns.
Import Transcriber Runs.

Lemma to_int16_id (z : Z) : is_int16 z → Pcm.to_int16 z = z.
Proof.
  unfold is_int16, Pcm.to_int16. intros H.
  rewrite Z.mod_small by lia. lia.
Qed.

Lemma to_int16_range (z : Z) : is_int16 (Pcm.to_int16 z).
Proof.
  unfold is_int16, Pcm.to_int16.
  pose proof (Z.mod_pos_bound (z + 32768) 65536). lia.
Qed.



End CallbackRuns.

(** X10: chunks put one after another into a fresh queue of capacity [m]
    never raise; a bounded queue ends with the newest [m] of them in their
    order (all of them while they fit), an unbounded one ([m <= 0]) with all
    of them. *)
Theorem queue_keeps_newest_chunks (A : Type) (m : Z) (xs : list A) :
  ∃ q,
    Transcriber.enqueue_all (PyQueue.create m) xs = Returned q ∧
    PyQueue.maxsize q = m ∧
    PyQueue.items q = Runs.newest m xs ∧
    PyQueue.items q `suffix_of` xs ∧
    PyQueue.qsize q =
      (if (0 <? m)%Z then Nat.min (length xs) (Z.to_nat m) else length xs).
Proof.
  eexists. split; [apply enqueue_all_items, create_within_capacity|].
  simpl. unfold Runs.newest, PyQueue.qsize. simpl. split_and!; try done.
  - destruct (0 <? m)%Z; [apply suffix_drop | done].
  - destruct (Z.ltb_spec 0 m); [|done]. rewrite length_drop. lia.
Qed.



(** X12: the callback never alters a captured sample: for a block of
    [int16] samples whose [frames] argument is its length, the chunk is the
    first [chunk_samples] samples as they came, followed by zeros; a block
    of exactly [chunk_samples] samples is passed on as it is. *)
Theorem captured_samples_are_kept
    (chunk_samples : nat) (indata : list Z) (frames : nat) :
  frames = length indata →
  Forall Runs.is_int16 indata →
  Transcriber.fit_frame chunk_samples indata frames =
    take chunk_samples indata ++ replicate (chunk_samples - length indata) 0%Z ∧
  (length indata = chunk_samples →
   Transcriber.fit_frame chunk_samples indata frames = indata) ∧
  Forall Runs.is_int16 (Transcriber.fit_frame chunk_samples indata frames).
Proof.
  intros Hframes Hrange.
  assert (Pcm.to_int16 <$> take chunk_samples indata = take chunk_samples indata) as Hid.
  { rewrite <- (list_fmap_id (take chunk_samples indata)) at 2.
    apply Forall_fmap_ext. eapply Forall_impl.
    - apply Forall_take, Hrange.
    - intros z Hz. by apply to_int16_id. }
  rewrite fit_frame_shape, Hid by done. split_and!; [done | |].
  - intros <-. by rewrite take_ge, Nat.sub_diag, app_nil_r.
  - apply Forall_app. split; [by apply Forall_take|].
    apply Forall_replicate. unfold Runs.is_int16. lia.
Qed.

(** A short block, with the extreme sample values. *)
Lemma captured_samples_are_kept_witness :
  Transcriber.fit_frame 4 [-32768; 32767; 0]%Z 3 =
    take 4 [-32768; 32767; 0]%Z ++ replicate (4 - 3) 0%Z ∧
  (3 = 4 → Transcriber.fit_frame 4 [-32768; 32767; 0]%Z 3 = [-32768; 32767; 0]%Z) ∧
  Forall Runs.is_int16 (Transcriber.fit_frame 4 [-32768; 32767; 0]%Z 3).
Proof.
  apply (captured_samples_are_kept 4 [-32768; 32767; 0]%Z 3).
  - reflexivity.
  - repeat constructor; unfold Runs.is_int16; lia.
Defined.

(** ** The rolling partial line *)

Section DisplayFacts.
Import Display.

Lemma max_len_at_least (width : Z) : 20 ≤ max_len width.
Proof. unfold max_len. lia. Qed.


End DisplayFacts.

(** X13: the partial line is capped at [max(20, width - 1)] characters,
    which is less than the width of a terminal of 21 columns or more, and is
    20 on a narrower one, where a long partial overflows the line.  The
    rendered text has the length of the text or the cap, whichever is
    smaller; it is the text itself exactly when the text is within the cap,
    and otherwise three dots followed by the last [max(20, width - 1) - 3]
    characters of the text. *)
Theorem partial_line_is_capped (width : Z) (text : str) :
  let r := Display._fit_partial_for_terminal width text in
  length r = Nat.min (length text) (Display.max_len width) ∧
  (r = text ↔ length text ≤ Display.max_len width) ∧
  (r = text ∨
   ∃ tail, r = lit "..." ++ tail ∧ tail `suffix_of` text ∧
           length tail = Display.max_len width - 3) ∧
  ((21 <= width)%Z → (Z.of_nat (length r) < width)%Z) ∧
  ((width < 21)%Z → 20 ≤ length text → length r = 20).
Proof.
  intros r. subst r. unfold Display._fit_partial_for_terminal.
  pose proof (max_len_at_least width) as Hmax.
  assert ((21 <= width)%Z → (Z.of_nat (Display.max_len width) < width)%Z) as Hwide.
  { unfold Display.max_len. lia. }
  assert ((width < 21)%Z → Display.max_len width = 20) as Hnarrow.
  { unfold Display.max_len. lia. }
  destruct (Nat.leb_spec (length text) (Display.max_len width)) as [Hfit|Hlong].
  { split_and!; [lia | done | by left | lia | lia]. }
  assert (length (slice_last (Display.max_len width - 3) text) =
            Display.max_len width - 3) as Htail.
  { apply slice_last_length; lia. }
  assert (length (lit "..." ++ slice_last (Display.max_len width - 3) text) =
            Display.max_len width) as Hlen.
  { rewrite length_app, Htail. simpl. lia. }
  split_and!.
  - lia.
  - split; [|lia]. intros E. apply (f_equal length) in E. lia.
  - right. eexists. split_and!; [done | apply slice_last_suffix | done].
  - lia.
  - lia.
Qed.

(** X14: a partial transcript that repeats the text of the one before is
    suppressed: handling the same event again, at any terminal width, writes
    nothing and leaves the display as it is. *)
Theorem repeated_partial_is_suppressed
    (show_partial : bool) (width width' : Z) (d d' : Display.t) (data : Json.t) :
  Display._on_partial_transcript show_partial width d data = Returned d' →
  Display._on_partial_transcript show_partial width' d' data = Returned d'.
Proof.
  unfold Display._on_partial_transcript.
  destruct show_partial; simpl; [|by intros [= <-]].
  destruct (App.stripped_text data) as [text|e]; [|done].
  destruct (is_empty text) eqn:Hempty; [by intros [= <-]|].
  destruct (eqb text (Display.last_partial_text d)) eqn:Heq.
  - intros [= <-]. by rewrite Heq.
  - intros [= <-]. simpl. by rewrite eqb_refl.
Qed.

(** The same partial text delivered a second time, on a narrower terminal. *)
Lemma repeated_partial_is_suppressed_witness :
  let data := Json.Obj [(lit "text", Json.Str (lit " so what I think is "))] in
  let d' := Display.Make (lit "so what I think is") true 18
              [[13; 13]%N ++ lit "so what I think is"] in
  Display._on_partial_transcript true 40 d' data = Returned d'.
Proof.
  intros data d'.
  apply (repeated_partial_is_suppressed true 80 40 Display.init d' data).
  vm_compute. reflexivity.
Defined.



(** ** The REST interface *)

Section RestFacts.
Import Rest.

Lemma str_ltb_asym (s t : str) : str_ltb s t = true → str_ltb t s = false.
Proof.
  revert s. induction t as [|b t IH]; intros [|a s]; simpl; try done.
  rewrite orb_true_iff, andb_true_iff, orb_false_iff, andb_false_iff.
  rewrite N.ltb_lt, N.eqb_eq, N.ltb_ge, N.eqb_neq.
  intros [Hlt|[-> Hrec]].
  - split; [lia | left; lia].
  - split; [lia | right; by apply IH].
Qed.

Lemma str_ge_trans (a b c : str) : str_ge a b → str_ge b c → str_ge a c.
Proof.
  unfold str_ge. revert a b. induction c as [|z c IH]; intros a b; [by destruct a|].
  destruct b as [|y b]; [by destruct a|]. destruct a as [|x a]; [done|]. simpl.
  rewrite !orb_false_iff, !andb_false_iff, !N.ltb_ge, !N.eqb_neq.
  intros [Hyx Hab] [Hzy Hbc]. split; [lia|].
  destruct (decide (x = z)) as [->|]; [right | by left].
  assert (y = z) as -> by lia.
  destruct Hab as [|Hab], Hbc as [|Hbc]; try done. by eapply IH.
Qed.

Lemma not_older_trans : Transitive not_older.
Proof. intros a b c. apply str_ge_trans. Qed.

Lemma insert_desc_perm (m : listed) (l : list listed) : insert_desc m l ≡ₚ m :: l.
Proof.
  induction l as [|y l IH]; simpl; [done|].
  destruct (str_ltb _ _); [|done]. rewrite IH. apply Permutation_swap.
Qed.

Lemma sort_desc_perm (l : list listed) : sort_desc l ≡ₚ l.
Proof.
  induction l as [|m l IH]; simpl; [done|].
  fold (sort_desc l). by rewrite insert_desc_perm, IH.
Qed.

Lemma insert_desc_sorted (m : listed) (l : list listed) :
  Sorted not_older l → Sorted not_older (insert_desc m l).
Proof.
  induction 1 as [|y l Hl IH Hhd]; simpl; [by repeat constructor|].
  destruct (str_ltb (sort_key m) (sort_key y)) eqn:E.
  - constructor; [done|].
    destruct l as [|z l]; simpl.
    + constructor. by apply str_ltb_asym.
    + destruct (str_ltb (sort_key m) (sort_key z)).
      * constructor. by inversion Hhd.
      * constructor. by apply str_ltb_asym.
  - constructor; [by constructor | by constructor].
Qed.

Lemma sort_desc_sorted (l : list listed) : Sorted not_older (sort_desc l).
Proof.
  induction l as [|m l IH]; simpl; [constructor|].
  by apply insert_desc_sorted.
Qed.

Lemma collect_returned (folders : list (str * App.meeting_dir)) (l : list listed) :
  collect folders = Returned l →
  (∀ id md, Listed id md ∈ l ↔
            ∃ d, (id, d) ∈ folders ∧ App.metadata_json d = Some (App.Doc md)) ∧
  l_id <$> l `sublist_of` folders.*1 ∧
  (∀ id d, (id, d) ∈ folders → ¬ unreadable d).
Proof.
  unfold unreadable.
  revert l. induction folders as [|[id0 d0] rest IH]; intros l; simpl.
  { intros [= <-]. split_and!; [|done|].
    - intros id md. split; [by intros ?%elem_of_nil|].
      by intros (d & ?%elem_of_nil & _).
    - by intros id d ?%elem_of_nil. }
  destruct (App.metadata_json d0) as [[|md0]|] eqn:E0; [done| |].
  - destruct (collect rest) as [l0|e]; [|done]. intros [= <-].
    destruct (IH l0 eq_refl) as (Hin & Hsub & Hread). split_and!.
    + intros id md. rewrite !elem_of_cons, Hin. split.
      * intros [[= -> ->]|(d & Hd & Hmd)].
        -- exists d0. split; [by left | done].
        -- exists d. split; [by right | done].
      * intros (d & [[= -> ->]|Hd]%elem_of_cons & Hmd).
        -- left. rewrite E0 in Hmd. by injection Hmd as ->.
        -- right. by exists d.
    + simpl. by apply sublist_skip.
    + intros id d [[= -> ->]|Hd]%elem_of_cons; [by rewrite E0 | by eapply Hread].
  - intros Hl. destruct (IH l Hl) as (Hin & Hsub & Hread). split_and!.
    + intros id md. rewrite Hin. split.
      * intros (d & Hd & Hmd). exists d. split; [by right | done].
      * intros (d & [[= -> ->]|Hd]%elem_of_cons & Hmd);
          [by rewrite E0 in Hmd | by exists d].
    + simpl. by apply sublist_cons.
    + intros id d [[= -> ->]|Hd]%elem_of_cons; [by rewrite E0 | by eapply Hread].
Qed.

Lemma collect_raised (folders : list (str * App.meeting_dir)) (e : App.exn) :
  collect folders = Raised e →
  e = App.JSONDecodeError ∧ ∃ id d, (id, d) ∈ folders ∧ unreadable d.
Proof.
  unfold unreadable.
  induction folders as [|[id0 d0] rest IH]; simpl; [done|].
  destruct (App.metadata_json d0) as [[|md0]|] eqn:E0.
  - intros [= <-]. split; [done|]. exists id0, d0. split; [by left | done].
  - destruct (collect rest) as [l0|e0]; [done|]. intros [= <-].
    destruct (IH eq_refl) as (-> & id & d & Hd & Hmd).
    split; [done|]. exists id, d. split; [by right | done].
  - intros He. destruct (IH He) as (-> & id & d & Hd & Hmd).
    split; [done|]. exists id, d. split; [by right | done].
Qed.

Lemma mkdir_lookup (id id' : str) (fs0 : gmap str App.meeting_dir) :
  App.mkdir id fs0 !! id' =
    if decide (id = id') then Some (default App.empty_dir (fs0 !! id))
    else fs0 !! id'.
Proof.
  unfold App.mkdir. destruct (fs0 !! id) as [d|] eqn:E.
  - case_decide; [by subst | done].
  - rewrite lookup_insert. by case_decide.
Qed.

End RestFacts.

(** X16: when every metadata file can be read, [list_meetings] returns the
    meetings newest first (no entry is older, by its creation time as a
    string, than any entry after it), and lists exactly the folders that
    have a metadata record, each once, under the folder's name, whatever the
    order the system lists the folders in.  It raises, with the decoder's
    error, only when some folder holds a metadata file with nothing in it,
    as a failed write leaves it. *)
Theorem list_meetings_newest_first
    (s : Rest.store) (folders : list (str * App.meeting_dir)) :
  folders ≡ₚ map_to_list (Rest.meetings s) →
  match Rest.list_meetings folders with
  | Returned r =>
      StronglySorted Rest.not_older r ∧
      NoDup (Rest.l_id <$> r) ∧
      (∀ id md, Rest.Listed id md ∈ r ↔
                ∃ d, Rest.meetings s !! id = Some d ∧
                     App.metadata_json d = Some (App.Doc md)) ∧
      (∀ id d, Rest.meetings s !! id = Some d → ¬ Rest.unreadable d)
  | Raised e =>
      e = App.JSONDecodeError ∧
      ∃ id d, Rest.meetings s !! id = Some d ∧ Rest.unreadable d
  end.
Proof.
  intros Hperm. unfold Rest.list_meetings.
  destruct (Rest.collect folders) as [l|e] eqn:E.
  - destruct (collect_returned folders l E) as (Hin & Hsub & Hread). split_and!.
    + apply Sorted_StronglySorted; [apply not_older_trans | apply sort_desc_sorted].
    + rewrite sort_desc_perm.
      eapply sublist_NoDup; [|exact Hsub].
      rewrite Hperm. apply NoDup_fst_map_to_list.
    + intros id md. rewrite sort_desc_perm, Hin.
      split; intros (d & Hd & Hmd); exists d; split; try done.
      * apply elem_of_map_to_list. by rewrite <- Hperm.
      * rewrite Hperm. by apply elem_of_map_to_list.
    + intros id d Hd. apply (Hread id). rewrite Hperm. by apply elem_of_map_to_list.
  - destruct (collect_raised folders e E) as (-> & id & d & Hd & Hmd).
    split; [done|]. exists id, d. split; [|done].
    apply elem_of_map_to_list. by rewrite <- Hperm.
Qed.

(** A store of two meetings and a folder that holds audio only. *)
Lemma list_meetings_newest_first_witness :
  let md1 := App.Metadata (Json.Str (lit "Standup")) (lit "2026-01-01T09:00:00")
               App.completed 60 (Some 3) in
  let md2 := App.Metadata (Json.Str (lit "Review")) (lit "2026-01-02T10:30:00")
               App.recording 0 None in
  let s := Rest.Store
             (<[lit "m1" := App.MeetingDir (Some (App.Doc md1)) (Some (App.Doc []))]>
                (<[lit "m2" := App.MeetingDir (Some (App.Doc md2)) None]>
                   (<[lit "m3" := App.empty_dir]> ∅))) in
  match Rest.list_meetings (map_to_list (Rest.meetings s)) with
  | Returned r =>
      StronglySorted Rest.not_older r ∧
      NoDup (Rest.l_id <$> r) ∧
      (∀ id md, Rest.Listed id md ∈ r ↔
                ∃ d, Rest.meetings s !! id = Some d ∧
                     App.metadata_json d = Some (App.Doc md)) ∧
      (∀ id d, Rest.meetings s !! id = Some d → ¬ Rest.unreadable d)
  | Raised e =>
      e = App.JSONDecodeError ∧
      ∃ id d, Rest.meetings s !! id = Some d ∧ Rest.unreadable d
  end.
Proof.
  intros md1 md2 s.
  apply (list_meetings_newest_first s (map_to_list (Rest.meetings s))).
  reflexivity.
Defined.

(** ** The relay task *)

Section RelayFacts.
Import App Observe.

Lemma send_json_returned (w w' : websocket) (m : server_msg) :
  send_json w m = Returned w' →
  usable w = true ∧
  w' = WebSocket (sent w ++ [m]) (closed w) (one_less (peer_takes w)).
Proof. unfold send_json. destruct (usable w); [|done]. by intros [= <-]. Qed.

Lemma send_json_raised (w : websocket) (m : server_msg) (e : exn) :
  send_json w m = Raised e → usable w = false.
Proof. unfold send_json. by destruct (usable w). Qed.

Lemma send_json_unusable (w : websocket) (m : server_msg) :
  usable w = false → send_json w m = Raised WebSocketDisconnect.
Proof. unfold send_json. by intros ->. Qed.

Lemma takes_le (m n : nat) (w : websocket) :
  m ≤ n → takes n w = true → takes m w = true.
Proof.
  unfold takes. intros Hle. destruct (closed w); [done|]. simpl.
  destruct (peer_takes w) as [k|]; [|done].
  rewrite !Nat.leb_le. lia.
Qed.

(** One pass of the loop records the segment of its event, if any, and
    nothing else. *)
Lemma relay_event_segments (r : relay) (ev : event) (now_iso : str) :
  r_segments (relay_event r ev now_iso).1 =
    r_segments r ++ option_list (segment_of (ev, now_iso)).
Proof.
  unfold relay_event, segment_of. simpl.
  destruct ev as [data|data|data|]; simpl; try by rewrite app_nil_r.
  - destruct (stripped_text data) as [text|]; [|by rewrite app_nil_r].
    destruct (is_empty text); [by rewrite app_nil_r|].
    destruct (send_json _ _); simpl; by rewrite app_nil_r.
  - destruct (stripped_text data) as [text|]; [|by rewrite app_nil_r].
    destruct (is_empty text); [by rewrite app_nil_r|].
    by destruct (send_json _ _).
  - destruct (error_text data) as [message|]; [|by rewrite app_nil_r].
    destruct (send_json _ _); simpl; by rewrite app_nil_r.
Qed.

(** One pass of the loop never closes the socket and only adds to what was
    sent.  The committed messages it adds are the texts of the segments it
    records, unless the browser has gone: then the segment of a committed
    event is recorded, nothing is sent and the loop ends.  A pass uses up
    at most one of the operations the browser is there for. *)
Lemma relay_event_socket (r : relay) (ev : event) (now_iso : str) :
  let r' := (relay_event r ev now_iso).1 in
  let new := option_list (segment_of (ev, now_iso)) in
  closed (r_ws r') = closed (r_ws r) ∧
  sent (r_ws r) `prefix_of` sent (r_ws r') ∧
  (committed_texts (sent (r_ws r')) =
     committed_texts (sent (r_ws r)) ++ (text <$> new)
   ∨ ((relay_event r ev now_iso).2 = false ∧ usable (r_ws r') = false ∧
      sent (r_ws r') = sent (r_ws r) ∧ ∃ sg, new = [sg])) ∧
  (∀ n, takes (S n) (r_ws r) = true →
        takes n (r_ws r') = true ∧
        committed_texts (sent (r_ws r')) =
          committed_texts (sent (r_ws r)) ++ (text <$> new)).
Proof.
  assert (∀ n, takes (S n) (r_ws r) = true → takes n (r_ws r) = true) as Hmono.
  { intros n. apply takes_le. lia. }
  assert (∀ m w', send_json (r_ws r) m = Returned w' →
            closed w' = closed (r_ws r) ∧ sent w' = sent (r_ws r) ++ [m] ∧
            ∀ n, takes (S n) (r_ws r) = true → takes n w' = true) as Hsend.
  { intros m w' [_ ->]%send_json_returned. split_and!; [done..|].
    intros n. apply takes_after_send. }
  unfold relay_event, segment_of, committed_texts. simpl.
  destruct ev as [data|data|data|]; simpl.
  - destruct (stripped_text data) as [t|]; simpl;
      [|rewrite app_nil_r; split_and!; [done | done | by left | by auto]].
    destruct (is_empty t); simpl;
      [rewrite app_nil_r; split_and!; [done | done | by left | by auto]|].
    destruct (send_json _ _) as [w'|] eqn:E; simpl;
      [|rewrite app_nil_r; split_and!; [done | done | by left | by auto]].
    destruct (Hsend _ _ E) as (-> & -> & Htakes).
    rewrite omap_app, app_nil_r. simpl. rewrite app_nil_r.
    split_and!; [done | by apply prefix_app_r | by left | by auto].
  - destruct (stripped_text data) as [t|]; simpl;
      [|rewrite app_nil_r; split_and!; [done | done | by left | by auto]].
    destruct (is_empty t); simpl;
      [rewrite app_nil_r; split_and!; [done | done | by left | by auto]|].
    destruct (send_json _ _) as [w'|] eqn:E; simpl.
    + destruct (Hsend _ _ E) as (-> & -> & Htakes).
      rewrite omap_app. simpl.
      split_and!; [done | by apply prefix_app_r | by left | by auto].
    + apply send_json_raised in E.
      split_and!; [done | done | right; split_and!; by eauto |].
      intros n Hn. apply (takes_le 1) in Hn; [|lia].
      apply takes_usable in Hn. congruence.
  - destruct (error_text data) as [message|]; simpl;
      [|rewrite app_nil_r; split_and!; [done | done | by left | by auto]].
    destruct (send_json _ _) as [w'|] eqn:E; simpl;
      [|rewrite app_nil_r; split_and!; [done | done | by left | by auto]].
    destruct (Hsend _ _ E) as (-> & -> & Htakes).
    rewrite omap_app, app_nil_r. simpl. rewrite app_nil_r.
    split_and!; [done | by apply prefix_app_r | by left | by auto].
  - rewrite app_nil_r. split_and!; [done | done | by left | by auto].
Qed.

Lemma segment_of_trimmed (e : event * str) (sg : segment) :
  segment_of e = Some sg → text sg ≠ [] ∧ trimmed (text sg).
Proof.
  unfold segment_of, stripped_text. destruct e as [[data|data|data|] ts]; simpl; try done.
  destruct (Json.get data _) as [field|]; [|done].
  destruct (Json.truthy _).
  - destruct (Json.or_none field) as [| | | |s| |]; try done.
    destruct (is_empty (strip s)) eqn:E; [done|]. intros [= <-]. simpl.
    split; [by apply is_empty_false | apply strip_trimmed].
  - done.
Qed.

Lemma omap_segment_cons (e : event * str) (l : list (event * str)) :
  omap segment_of (e :: l) = option_list (segment_of e) ++ omap segment_of l.
Proof. simpl. by destruct (segment_of e). Qed.

(** The relay over the events it takes off the queue. *)
Lemma relay_run (evs : list (event * str)) (r : relay) :
  let r' := elevenlabs_to_browser r evs in
  let new := omap segment_of (take (handled_count r evs) evs) in
  r_segments r' = r_segments r ++ new ∧
  closed (r_ws r') = closed (r_ws r) ∧
  sent (r_ws r) `prefix_of` sent (r_ws r') ∧
  (committed_texts (sent (r_ws r')) =
     committed_texts (sent (r_ws r)) ++ (text <$> new)
   ∨ ∃ init last, new = init ++ [last] ∧ usable (r_ws r') = false ∧
       committed_texts (sent (r_ws r')) =
         committed_texts (sent (r_ws r)) ++ (text <$> init)) ∧
  (∀ n, takes (length evs + n) (r_ws r) = true →
        takes n (r_ws r') = true ∧
        committed_texts (sent (r_ws r')) =
          committed_texts (sent (r_ws r)) ++ (text <$> new)).
Proof.
  revert r. induction evs as [|[ev ts] rest IH]; intros r; cbv zeta.
  { simpl. rewrite !app_nil_r. split_and!; [done | done | done | by left | done]. }
  pose proof (relay_event_segments r ev ts) as Hseg.
  pose proof (relay_event_socket r ev ts) as (Hc & Hs & Hm & Ht).
  cbn [elevenlabs_to_browser handled_count].
  destruct (relay_event r ev ts) as [r1 go]. cbn [fst snd] in *.
  destruct go.
  - destruct (IH r1) as (Hseg' & Hc' & Hs' & Hm' & Ht').
    cbn [take]. rewrite omap_segment_cons.
    set (new1 := option_list (segment_of (ev, ts))) in *.
    set (new2 := omap segment_of (take (handled_count r1 rest) rest)) in *.
    destruct Hm as [Hm|(? & _)]; [|done].
    split_and!.
    + by rewrite Hseg', Hseg, <- app_assoc.
    + congruence.
    + by etrans.
    + destruct Hm' as [Hm'|(init & last & Hnew & Huse & Hm')].
      * left. by rewrite Hm', Hm, fmap_app, <- app_assoc.
      * right. exists (new1 ++ init), last. split_and!.
        -- by rewrite Hnew, app_assoc.
        -- done.
        -- by rewrite Hm', Hm, fmap_app, <- app_assoc.
    + intros n Hn. destruct (Ht (length rest + n)) as [Hn1 _]; [done|].
      destruct (Ht' n Hn1) as [Hn2 Hm2]. split; [done|].
      by rewrite Hm2, Hm, fmap_app, <- app_assoc.
  - cbn [take]. rewrite take_0, omap_segment_cons. simpl omap. rewrite app_nil_r.
    split_and!; [done | done | done | |].
    + destruct Hm as [Hm|(_ & Huse & Hsent & sg & Hsg)]; [by left|].
      right. exists [], sg. split_and!; [done | done |].
      rewrite Hsent. simpl. by rewrite app_nil_r.
    + intros n Hn. destruct (Ht (length rest + n)) as [Hn1 Hm1]; [done|].
      split; [|done]. eapply takes_le; [|exact Hn1]. lia.
Qed.

(** The count of handled events is where the loop stopped. *)
Lemma handled_count_spec (evs : list (event * str)) (r : relay) :
  let k := handled_count r evs in
  k ≤ length evs ∧
  elevenlabs_to_browser r evs = elevenlabs_to_browser r (take k evs) ∧
  (∀ i e, evs !! i = Some e → S i < k →
          (relay_event (elevenlabs_to_browser r (take i evs)) e.1 e.2).2 = true) ∧
  (k < length evs →
   ∃ e, evs !! (k - 1) = Some e ∧ 0 < k ∧
        (relay_event (elevenlabs_to_browser r (take (k - 1) evs)) e.1 e.2).2 = false).
Proof.
  revert r. induction evs as [|[ev ts] rest IH]; intros r; cbv zeta.
  { simpl. split_and!; [done | done | done | lia]. }
  cbn [handled_count].
  destruct (relay_event r ev ts) as [r1 go] eqn:E. destruct go.
  - destruct (IH r1) as (Hk & Hrun & Hbefore & Hlast).
    cbn [take elevenlabs_to_browser length]. rewrite E. split_and!.
    + lia.
    + done.
    + intros [|i] e Hi Hlt.
      * injection Hi as <-. simpl. by rewrite E.
      * cbn [take elevenlabs_to_browser]. rewrite E.
        apply Hbefore; [done | lia].
    + intros Hlt. destruct Hlast as (e & He & Hpos & Hstop); [lia|].
      exists e. rewrite Nat.sub_succ, Nat.sub_0_r.
      destruct (handled_count r1 rest) as [|k'] eqn:Ek; [lia|].
      rewrite Nat.sub_succ, Nat.sub_0_r in He, Hstop.
      cbn [take elevenlabs_to_browser]. rewrite E.
      split_and!; [done | lia | done].
  - cbn [take elevenlabs_to_browser length]. rewrite E, take_0.
    split_and!; [lia | done | |].
    + intros i e _ Hi. lia.
    + intros _. exists (ev, ts). simpl. rewrite E. split_and!; [done | lia | done].
Qed.

Lemma omap_prefix_take (evs : list (event * str)) (k : nat) :
  omap segment_of (take k evs) `prefix_of` omap segment_of evs.
Proof.
  rewrite <- (take_drop k evs) at 2. rewrite omap_app. by apply prefix_app_r.
Qed.

Lemma recorded_segments_ok (evs : list (event * str)) :
  Forall (λ sg, text sg ≠ [] ∧ trimmed (text sg)) (omap segment_of evs).
Proof.
  apply Forall_forall. intros sg (e & _ & He)%list_elem_of_omap.
  by eapply segment_of_trimmed.
Qed.

End RelayFacts.

(** X19: the relay task handles the events in order up to the first one at
    which its loop ends (an upstream close, an event it cannot read, or a
    send that fails), and nothing after it.  The segments it records are
    exactly the non-blank committed texts of the events it handled,
    trimmed, in the order of the events, added after the segments already
    there; every one of them is non-empty and has no whitespace at its
    ends; partial, error and close events record nothing. *)
Theorem relay_records_committed_texts_in_order
    (r : App.relay) (evs : list (App.event * str)) :
  let r' := App.elevenlabs_to_browser r evs in
  let k := Observe.handled_count r evs in
  k ≤ length evs ∧
  r' = App.elevenlabs_to_browser r (take k evs) ∧
  (∀ i e, evs !! i = Some e → S i < k →
          (App.relay_event (App.elevenlabs_to_browser r (take i evs)) e.1 e.2).2
            = true) ∧
  (k < length evs →
   ∃ e, evs !! (k - 1) = Some e ∧ 0 < k ∧
        (App.relay_event (App.elevenlabs_to_browser r (take (k - 1) evs)) e.1 e.2).2
          = false) ∧
  App.r_segments r' =
    App.r_segments r ++ omap Observe.segment_of (take k evs) ∧
  Forall (λ sg, App.text sg ≠ [] ∧ Observe.trimmed (App.text sg))
         (omap Observe.segment_of (take k evs)).
Proof.
  intros r' k.
  destruct (handled_count_spec evs r) as (Hk & Hrun & Hbefore & Hlast).
  destruct (relay_run evs r) as (Hseg & _).
  split_and!; [done | done | done | done | done |].
  apply recorded_segments_ok.
Qed.


(** X21: the relay handles nothing after the upstream close event: whatever
    follows it on the queue changes neither what is sent nor what is
    recorded. *)
Theorem nothing_is_relayed_after_close
    (r : App.relay) (before after : list (App.event * str)) (now_iso : str) :
  App.elevenlabs_to_browser r (before ++ (App.ev_close, now_iso) :: after) =
  App.elevenlabs_to_browser r (before ++ [(App.ev_close, now_iso)]).
Proof.
  revert r. induction before as [|[ev ts] rest IH]; intros r; simpl; [done|].
  destruct (App.relay_event r ev ts) as [r1 go]. by destruct go.
Qed.

(** X22: when the browser's socket is no longer usable, a committed event
    with a non-blank text still has its segment recorded before the failed
    send ends the relay, and the finalisation writes it to the transcript:
    the text is saved although the browser never received it.  The one
    exception is a recorded text that holds a surrogate: the write of the
    transcript then fails and leaves the file empty. *)
Theorem unsent_commit_is_still_saved
    (fs0 : gmap str App.meeting_dir) (s : App.session) (r : App.relay)
    (data : Json.t) (t now_iso : str) (rest : list (App.event * str)) (elapsed : Z) :
  App.usable (App.r_ws r) = false →
  App.stripped_text data = Returned t → t ≠ [] →
  let segs := App.r_segments r ++ [App.Segment t now_iso] in
  let r' := App.elevenlabs_to_browser r ((App.ev_committed data, now_iso) :: rest) in
  r' = App.Relay (App.r_ws r) segs (App.r_el_closed r) ∧
  ∃ d, App.fs (Observe.world_of (App.finalize fs0 s r' elapsed)) !! App.meeting_id s
         = Some d ∧
       App.transcript_json d =
         Some (if App.segments_encodable segs then App.Doc segs else App.Blank).
Proof.
  intros Huse Ht Hne segs r'. subst r'.
  assert (App.relay_event r (App.ev_committed data) now_iso =
            (App.Relay (App.r_ws r) segs (App.r_el_closed r), false)) as E.
  { unfold App.relay_event. rewrite Ht. apply is_empty_false in Hne.
    by rewrite Hne, send_json_unusable. }
  assert (App.elevenlabs_to_browser r ((App.ev_committed data, now_iso) :: rest) =
            (App.relay_event r (App.ev_committed data) now_iso).1) as ->
    by (cbn [App.elevenlabs_to_browser]; by rewrite E).
  rewrite E. split; [done|].
  unfold App.finalize. cbn [fst App.r_segments App.r_ws].
  destruct (App.segments_encodable segs); cbn [negb].
  - destruct (App.metadata_encodable _); cbn [negb Observe.world_of App.fs];
      unfold App.write_metadata, App.write_transcript, App.set_metadata,
        App.set_transcript;
      rewrite !lookup_insert_eq; eexists; (split; [done|]); by simpl.
  - cbn [Observe.world_of App.fs]. unfold App.set_transcript.
    rewrite lookup_insert_eq. eexists. split; [done|]. by simpl.
Qed.

(** A commit arriving after the browser went away. *)
Lemma unsent_commit_is_still_saved_witness :
  let s := App.Session (lit "m1")
             (App.Metadata (Json.Str (lit "Standup")) (lit "t0") App.recording 0 None)
             [] false in
  let r := App.Relay (App.WebSocket [] false (Some 0)) [] false in
  let data := Json.Obj [(lit "text", Json.Str (lit " last words "))] in
  let segs := App.r_segments r ++ [App.Segment (lit "last words") (lit "t1")] in
  let r' := App.elevenlabs_to_browser r [(App.ev_committed data, lit "t1")] in
  r' = App.Relay (App.r_ws r) segs (App.r_el_closed r) ∧
  ∃ d, App.fs (Observe.world_of (App.finalize ∅ s r' 5)) !! App.meeting_id s = Some d ∧
       App.transcript_json d =
         Some (if App.segments_encodable segs then App.Doc segs else App.Blank).
Proof.
  intros s r data.
  apply (unsent_commit_is_still_saved ∅ s r data (lit "last words") (lit "t1") [] 5).
  - vm_compute. reflexivity.
  - vm_compute. reflexivity.
  - vm_compute. discriminate.
Defined.

(** ** The websocket handler as a whole *)

Section HandlerRuns.
Import App Observe.

Lemma set_metadata_other (id id' : str) (f : json_file metadata)
    (fs0 : gmap str meeting_dir) :
  id' ≠ id → set_metadata id f fs0 !! id' = fs0 !! id'.
Proof. intros H. unfold set_metadata. by rewrite lookup_insert_ne. Qed.

Lemma set_transcript_other (id id' : str) (f : json_file (list segment))
    (fs0 : gmap str meeting_dir) :
  id' ≠ id → set_transcript id f fs0 !! id' = fs0 !! id'.
Proof. intros H. unfold set_transcript. by rewrite lookup_insert_ne. Qed.

Lemma set_metadata_same (id : str) (f : json_file metadata)
    (fs0 : gmap str meeting_dir) :
  set_metadata id f fs0 !! id =
    Some (MeetingDir (Some f) (transcript_json (default empty_dir (fs0 !! id)))).
Proof. unfold set_metadata. by rewrite lookup_insert_eq. Qed.

Lemma set_transcript_same (id : str) (f : json_file (list segment))
    (fs0 : gmap str meeting_dir) :
  set_transcript id f fs0 !! id =
    Some (MeetingDir (metadata_json (default empty_dir (fs0 !! id))) (Some f)).
Proof. unfold set_transcript. by rewrite lookup_insert_eq. Qed.

Lemma write_metadata_other (id id' : str) (md : metadata) (fs0 : gmap str meeting_dir) :
  id' ≠ id → write_metadata id md fs0 !! id' = fs0 !! id'.
Proof. apply set_metadata_other. Qed.

Lemma write_transcript_other (id id' : str) (segs : list segment)
    (fs0 : gmap str meeting_dir) :
  id' ≠ id → write_transcript id segs fs0 !! id' = fs0 !! id'.
Proof. apply set_transcript_other. Qed.

Lemma session_folder_other (id id' : str) (md : metadata) (fs0 : gmap str meeting_dir) :
  id' ≠ id → write_metadata id md (mkdir id fs0) !! id' = fs0 !! id'.
Proof.
  intros H. rewrite write_metadata_other, mkdir_lookup by done.
  by rewrite decide_False.
Qed.

Lemma is_start_true (v : option Json.t) :
  is_start v = true → v = Some (Json.Str (lit "start")).
Proof.
  destruct v as [[| | | |s| |]|]; simpl; try done.
  by intros ->%eqb_true.
Qed.

(** The first phase touches no folder but the new meeting's, and a bridged
    session is the new meeting's. *)
Lemma start_phase_frame (connect : options → outcome str unit) (id iso : str)
    (w : world) (first : received) :
  match start_phase connect id iso w first with
  | Ended w' | Crashed _ w' => ∀ id', id' ≠ id → fs w' !! id' = fs w !! id'
  | Bridged w' s =>
      meeting_id s = id ∧ ∀ id', id' ≠ id → fs w' !! id' = fs w !! id'
  end.
Proof.
  unfold start_phase, open_session.
  repeat case_match; simplify_eq/=; repeat split; try done;
    intros id' Hne; by apply session_folder_other.
Qed.

(** The finalisation touches no folder but the session's. *)
Lemma finalize_frame (fs0 : gmap str meeting_dir) (s : session) (r : relay)
    (elapsed : Z) (id' : str) :
  id' ≠ meeting_id s →
  fs (world_of (finalize fs0 s r elapsed)) !! id' = fs0 !! id'.
Proof.
  intros Hne. unfold finalize.
  destruct (segments_encodable _); cbn [negb].
  - destruct (metadata_encodable _); cbn [negb world_of fs].
    + by rewrite write_metadata_other, write_transcript_other.
    + by rewrite set_metadata_other, write_transcript_other.
  - cbn [world_of fs]. by rewrite set_transcript_other.
Qed.

(** What the finalisation leaves in the meeting's folder and on the
    socket, in each of the three ways it can end. *)
Lemma finalize_result (fs0 : gmap str meeting_dir) (s : session) (r : relay)
    (elapsed : Z) :
  let segs := r_segments r in
  let md := Metadata (title (meta s)) (created_at (meta s)) completed elapsed
                     (Some (length segs)) in
  let before := metadata_json (default empty_dir (fs0 !! meeting_id s)) in
  match finalize fs0 s r elapsed with
  | Finished w' =>
      segments_encodable segs = true ∧ Json.utf8_ok (title (meta s)) = true ∧
      fs w' !! meeting_id s = Some (MeetingDir (Some (Doc md)) (Some (Doc segs))) ∧
      sent (ws w') = sent (r_ws r) ∧
      closed (ws w') = closed (r_ws r) || usable (r_ws r)
  | Failed e w' =>
      e = UnicodeEncodeError ∧ ws w' = r_ws r ∧
      ((segments_encodable segs = false ∧
        fs w' !! meeting_id s = Some (MeetingDir before (Some Blank)))
       ∨ (segments_encodable segs = true ∧ Json.utf8_ok (title (meta s)) = false ∧
          fs w' !! meeting_id s = Some (MeetingDir (Some Blank) (Some (Doc segs)))))
  end.
Proof.
  cbv zeta. unfold finalize, metadata_encodable. cbn [title].
  destruct (segments_encodable (r_segments r)); cbn [negb].
  - destruct (Json.utf8_ok (title (meta s))); cbn [negb]; cbn [fs ws].
    + unfold write_metadata, write_transcript.
      rewrite set_metadata_same, set_transcript_same. cbn [default transcript_json].
      unfold close. destruct (usable (r_ws r)); cbn [sent closed].
      * by rewrite orb_true_r.
      * by rewrite orb_false_r.
    + unfold write_transcript.
      rewrite set_metadata_same, set_transcript_same. cbn [default transcript_json].
      split_and!; [done..|]. right. by split_and!.
  - cbn [fs ws]. rewrite set_transcript_same.
    split_and!; [done..|]. left. by split_and!.
Qed.

End HandlerRuns.

(** X23: unless the first message is a well-formed start request, the
    handler creates nothing: the meeting store is left as it was and no
    session is announced; at most the error "Expected start message" is
    sent, which is what a usable socket receives for a first message that
    is a dict of another type, before the socket is closed, if the browser
    is still there for the close. *)
Theorem no_session_without_start (w : App.world) (env : App.run) :
  (∀ msg, App.first_message env = App.Message msg → ¬ App.well_formed_start msg) →
  let w' := Observe.world_of (App.ws_transcribe w env) in
  let expected := App.error (App.Text (lit "Expected start message")) in
  App.fs w' = App.fs w ∧
  (App.sent (App.ws w') = App.sent (App.ws w) ∨
   App.sent (App.ws w') = App.sent (App.ws w) ++ [expected]) ∧
  (∀ items, App.first_message env = App.Message (Json.Obj items) →
            App.usable (App.ws w) = true →
            App.ws_transcribe w env =
              App.Finished
                (App.World (App.fs w)
                   (App.WebSocket (App.sent (App.ws w) ++ [expected])
                                  (App.takes 2 (App.ws w))
                                  (App.one_less (App.one_less
                                     (App.peer_takes (App.ws w))))))).
Proof.
  intros Hbad w' expected. subst w'. unfold App.ws_transcribe, App.start_phase.
  destruct (App.first_message env) as [| |msg] eqn:Hfirst;
    [by split_and!; [|left|] | by split_and!; [|left|] |].
  specialize (Hbad msg eq_refl).
  destruct msg as [| | | | | |items]; simpl Json.get; cbv iota;
    try (by split_and!; [|left|]).
  destruct (App.is_start (Json.assoc (lit "type") items)) eqn:Hty.
  { destruct Hbad. exists items. split; [done|]. by apply is_start_true. }
  simpl negb. cbv iota.
  destruct (App.usable (App.ws w)) eqn:Huse.
  - rewrite send_json_usable by done.
    unfold App.usable in Huse. apply andb_prop in Huse as [Hopen Hpeer].
    apply negb_true_iff in Hopen.
    unfold App.close, App.usable, App.takes. cbn [App.closed App.peer_takes].
    rewrite Hopen.
    destruct (App.peer_takes (App.ws w)) as [[|[|n]]|]; try done; simpl;
      (split_and!; [done | by right |]); by intros items' [= <-] _.
  - rewrite send_json_unusable by done. simpl.
    split_and!; [done | by left | done].
Qed.

(** A first message of type "audio". *)
Lemma no_session_without_start_witness :
  let env := App.Run
               (App.Message (Json.Obj [(lit "type", Json.Str (lit "audio"));
                                       (lit "data", Json.Str (lit "AAAA"))]))
               (λ _, Returned tt) (lit "m1") (lit "t0") [] 0 in
  let w := App.World ∅ (App.WebSocket [] false None) in
  let w' := Observe.world_of (App.ws_transcribe w env) in
  let expected := App.error (App.Text (lit "Expected start message")) in
  App.fs w' = App.fs w ∧
  (App.sent (App.ws w') = App.sent (App.ws w) ∨
   App.sent (App.ws w') = App.sent (App.ws w) ++ [expected]) ∧
  (∀ items, App.first_message env = App.Message (Json.Obj items) →
            App.usable (App.ws w) = true →
            App.ws_transcribe w env =
              App.Finished
                (App.World (App.fs w)
                   (App.WebSocket (App.sent (App.ws w) ++ [expected])
                                  (App.takes 2 (App.ws w))
                                  (App.one_less (App.one_less
                                     (App.peer_takes (App.ws w))))))).
Proof.
  intros env w.
  apply (no_session_without_start w env).
  intros msg [= <-] (items & [= <-] & Hty). vm_compute in Hty. discriminate Hty.
Defined.

(** X24: once the upstream connection is there (well-formed start, usable
    socket, connect returns), the handler reaches the finalisation whatever
    the relay met, the session having been announced to the browser first.
    The segments it recorded are committed texts of the relayed events, in
    order, non-empty and trimmed.  When none of them and nothing in the
    title holds a surrogate, the handler returns with the meeting's
    metadata "completed", carrying the title, the elapsed duration, the
    creation time and a segment count equal to the length of the transcript
    written beside it, and the socket is closed if the browser stayed for
    every send and the close.  Otherwise a write fails and the exception
    leaves the handler: for a segment text, with the transcript file empty
    and the metadata still "recording"; for the title, with the transcript
    written and the metadata file empty. *)
Theorem bridged_session_is_finalized
    (w : App.world) (env : App.run) (msg : Json.t) :
  App.first_message env = App.Message msg →
  App.well_formed_start msg →
  App.usable (App.ws w) = true →
  (∀ o, App.connect env o = Returned tt) →
  let id := App.new_meeting_id env in
  let the_title :=
    default (Json.Str (lit "Untitled Meeting")) (mjoin (Json.get msg (lit "title"))) in
  ∃ w' segs,
    Observe.world_of (App.ws_transcribe w env) = w' ∧
    segs `prefix_of` omap Observe.segment_of (App.relayed env) ∧
    Forall (λ sg, App.text sg ≠ [] ∧ Observe.trimmed (App.text sg)) segs ∧
    App.sent (App.ws w) ++ [App.session_started id] `prefix_of` App.sent (App.ws w') ∧
    let md := App.Metadata the_title (App.started_iso env) App.completed
                (App.elapsed env) (Some (length segs)) in
    if App.segments_encodable segs && Json.utf8_ok the_title then
      App.ws_transcribe w env = App.Finished w' ∧
      App.fs w' !! id = Some (App.MeetingDir (Some (App.Doc md)) (Some (App.Doc segs))) ∧
      ¬ App.dangling (App.fs w') id ∧
      (App.takes (2 + length (App.relayed env)) (App.ws w) = true →
       App.closed (App.ws w') = true)
    else
      App.ws_transcribe w env = App.Failed App.UnicodeEncodeError w' ∧
      if App.segments_encodable segs then
        App.fs w' !! id = Some (App.MeetingDir (Some App.Blank) (Some (App.Doc segs)))
      else
        App.dangling (App.fs w') id ∧
        ∃ d, App.fs w' !! id = Some d ∧ App.transcript_json d = Some App.Blank.
Proof.
  intros Hfirst (items & -> & Hty) Huse Hconn id the_title.
  unfold App.ws_transcribe, App.start_phase, App.open_session. rewrite Hfirst.
  subst id the_title. set (id := App.new_meeting_id env). simpl Json.get. rewrite Hty. cbn [mjoin option_join].
  change (App.is_start (Some (Json.Str (lit "start")))) with true. cbv iota beta.
  simpl negb. cbv iota.
  rewrite send_json_usable by done. rewrite Hconn. cbv iota beta.
  cbn [App.ws App.fs App.segments App.el_closed].
  set (title0 := default (Json.Str (lit "Untitled Meeting"))
                         (Json.assoc (lit "title") items)).
  set (md0 := App.Metadata title0 (App.started_iso env) App.recording 0 None).
  set (fs0 := App.write_metadata id md0 (App.mkdir id (App.fs w))).
  set (s := App.Session id md0 [] false).
  match goal with
  | |- context [App.elevenlabs_to_browser ?r0 ?evs] =>
      destruct (relay_run evs r0) as (Hseg & Hc & Hs & _ & Ht);
      pose proof (recorded_segments_ok
                    (take (Observe.handled_count r0 evs) evs)) as Hok;
      set (k := Observe.handled_count r0 evs) in *;
      set (r' := App.elevenlabs_to_browser r0 evs) in *
  end.
  cbn [App.r_ws App.r_segments App.closed App.sent app] in Hseg, Hc, Hs, Ht.
  pose proof (finalize_result fs0 s r' (App.elapsed env)) as Hfin.
  cbv zeta in Hfin. cbn [App.meeting_id App.meta App.title App.created_at s md0] in Hfin.
  assert (App.metadata_json (default App.empty_dir (fs0 !! id)) =
            Some (App.Doc md0)) as Hbefore.
  { unfold fs0, App.write_metadata. by rewrite set_metadata_same. }
  rewrite Hbefore in Hfin.
  exists (Observe.world_of (App.finalize fs0 s r' (App.elapsed env))),
         (App.r_segments r').
  split; [done|]. rewrite Hseg at 1 2.
  split.
  { apply (omap_prefix_take _ k). }
  split; [done|].
  destruct (App.finalize fs0 s r' (App.elapsed env)) as [w'|e w'];
    cbn [Observe.world_of].
  - destruct Hfin as (Hsegs & Htitle & Hfs & Hsent & Hclosed).
    rewrite Hsent. split; [done|]. cbv zeta. rewrite Hsegs, Htitle. cbn [andb].
    split_and!; [done | exact Hfs | |].
    + intros (d & md & Hd & Hmd & Hst). rewrite Hfs in Hd. injection Hd as <-.
      cbn [App.metadata_json] in Hmd. by injection Hmd as <-.
    + intros Htakes. rewrite Hclosed, Hc.
      destruct (Ht 1) as [H1 _].
      { eapply takes_after_send in Htakes.
        eapply takes_le; [|exact Htakes]. lia. }
      apply takes_usable in H1. rewrite H1. apply orb_true_r.
  - destruct Hfin as (-> & -> & Hcase). split; [done|]. cbv zeta.
    destruct Hcase as [(Hsegs & Hfs)|(Hsegs & Htitle & Hfs)].
    + rewrite Hsegs. cbn [andb]. split; [done|]. split.
      * eexists _, md0. split_and!; [exact Hfs | done | done].
      * eexists. split; [exact Hfs | done].
    + rewrite Hsegs, Htitle. cbn [andb]. by split.
Qed.

(** A session with one partial and one committed event, stopped after
    twelve seconds. *)
Lemma bridged_session_is_finalized_witness :
  let start := Json.Obj [(lit "type", Json.Str (lit "start"));
                         (lit "language", Json.Str (lit "en"))] in
  let env :=
    App.Run (App.Message start) (λ _, Returned tt) (lit "m1") (lit "t0")
      [(App.ev_partial (Json.Obj [(lit "text", Json.Str (lit "hel"))]), lit "t1");
       (App.ev_committed (Json.Obj [(lit "text", Json.Str (lit " hello "))]), lit "t2")]
      12 in
  let w := App.World ∅ (App.WebSocket [] false None) in
  let the_title :=
    default (Json.Str (lit "Untitled Meeting")) (mjoin (Json.get start (lit "title"))) in
  ∃ w' segs,
    Observe.world_of (App.ws_transcribe w env) = w' ∧
    segs `prefix_of` omap Observe.segment_of (App.relayed env) ∧
    Forall (λ sg, App.text sg ≠ [] ∧ Observe.trimmed (App.text sg)) segs ∧
    App.sent (App.ws w) ++ [App.session_started (lit "m1")]
      `prefix_of` App.sent (App.ws w') ∧
    let md := App.Metadata the_title (lit "t0") App.completed 12 (Some (length segs)) in
    if App.segments_encodable segs && Json.utf8_ok the_title then
      App.ws_transcribe w env = App.Finished w' ∧
      App.fs w' !! lit "m1" =
        Some (App.MeetingDir (Some (App.Doc md)) (Some (App.Doc segs))) ∧
      ¬ App.dangling (App.fs w') (lit "m1") ∧
      (App.takes (2 + length (App.relayed env)) (App.ws w) = true →
       App.closed (App.ws w') = true)
    else
      App.ws_transcribe w env = App.Failed App.UnicodeEncodeError w' ∧
      if App.segments_encodable segs then
        App.fs w' !! lit "m1" =
          Some (App.MeetingDir (Some App.Blank) (Some (App.Doc segs)))
      else
        App.dangling (App.fs w') (lit "m1") ∧
        ∃ d, App.fs w' !! lit "m1" = Some d ∧ App.transcript_json d = Some App.Blank.
Proof.
  intros start env w.
  apply (bridged_session_is_finalized w env start).
  - reflexivity.
  - eexists. split; [reflexivity|]. vm_compute. reflexivity.
  - vm_compute. reflexivity.
  - intros o. reflexivity.
Defined.

(** X25: whatever the first message, the connect and the relayed events, a
    run of the handler changes no meeting folder but the one of the
    identifier it generated: every other meeting is as it was. *)
Theorem other_meetings_are_untouched (w : App.world) (env : App.run) (id' : str) :
  id' ≠ App.new_meeting_id env →
  App.fs (Observe.world_of (App.ws_transcribe w env)) !! id' = App.fs w !! id'.
Proof.
  intros Hne. unfold App.ws_transcribe.
  pose proof (start_phase_frame (App.connect env) (App.new_meeting_id env)
                (App.started_iso env) w (App.first_message env)) as H.
  destruct (App.start_phase _ _ _ _ _) as [w1|e w1|w1 s]; simpl; [by apply H..|].
  destruct H as [Hid H]. rewrite finalize_frame by by rewrite Hid.
  by apply H.
Qed.

(** A finished session beside a meeting recorded earlier. *)
Lemma other_meetings_are_untouched_witness :
  let old := App.MeetingDir
               (Some (App.Doc (App.Metadata (Json.Str (lit "Old")) (lit "t0")
                                            App.completed 60 (Some 0))))
               (Some (App.Doc [])) in
  let env :=
    App.Run (App.Message (Json.Obj [(lit "type", Json.Str (lit "start"))]))
      (λ _, Returned tt) (lit "m2") (lit "t5")
      [(App.ev_committed (Json.Obj [(lit "text", Json.Str (lit "hello"))]), lit "t6")]
      3 in
  let w := App.World (<[lit "m1" := old]> ∅) (App.WebSocket [] false None) in
  App.fs (Observe.world_of (App.ws_transcribe w env)) !! lit "m1" = App.fs w !! lit "m1".
Proof.
  intros old env w.
  apply (other_meetings_are_untouched w env (lit "m1")).
  vm_compute. discriminate.
Defined.

(** ** The launcher of the local transcriber *)

Section LauncherFacts.
Import Launcher.

Lemma mem_true (x : str) (l : list str) : mem x l = true ↔ x ∈ l.
Proof.
  unfold mem. rewrite existsb_exists. split.
  - intros (y & Hin & ->%eqb_true). by apply list_elem_of_In.
  - intros Hin. exists x. split; [by apply list_elem_of_In | apply eqb_refl].
Qed.

End LauncherFacts.

(** X26: the command the launcher runs always carries a [--display] option:
    the user's arguments are passed on unchanged and in order, followed by
    [--display text] only when they hold no [--display] themselves, after
    the six words that start the project's script; and the environment of
    the command has no [VIRTUAL_ENV], every other variable being as it
    was. *)
Theorem launcher_passes_display
    (project script : str) (passthrough : list str) (environ : gmap str str) :
  let r := Launcher.launch project script passthrough environ in
  r.1 = [lit "uv"; lit "run"; lit "--project"; project; lit "python"; script]
          ++ passthrough
          ++ (if bool_decide (lit "--display" ∈ passthrough) then []
              else [lit "--display"; lit "text"]) ∧
  lit "--display" ∈ drop 6 r.1 ∧
  r.2 !! lit "VIRTUAL_ENV" = None ∧
  ∀ name, name ≠ lit "VIRTUAL_ENV" → r.2 !! name = environ !! name.
Proof.
  intros r. subst r. unfold Launcher.launch, Launcher.with_display. simpl.
  destruct (Launcher.mem (lit "--display") passthrough) eqn:E; simpl.
  - apply mem_true in E. rewrite bool_decide_eq_true_2 by done.
    rewrite app_nil_r. split_and!; [done | done | apply lookup_delete_eq |].
    intros name Hne. by apply lookup_delete_ne.
  - assert (lit "--display" ∉ passthrough) as Hnot.
    { intros Hin. apply mem_true in Hin. congruence. }
    rewrite bool_decide_eq_false_2 by done.
    split_and!; [done | | apply lookup_delete_eq |].
    + apply elem_of_app. right. left.
    + intros name Hne. by apply lookup_delete_ne.
Qed.

(** X27: the folder the launcher resolves always holds the script, and an
    explicit project folder is final: when one is given (and not empty) the
    result is that folder, resolved, and never the sibling project, which
    is returned only when none is given. *)
Theorem resolved_project_has_script
    (resolve : str → str) (has_script : str → bool) (sibling : str)
    (explicit : option str) (p : str) :
  Launcher.resolve_local_project resolve has_script sibling explicit = Returned p →
  has_script p = true ∧
  p = (if is_empty (or_empty explicit) then sibling
       else resolve (or_empty explicit)).
Proof.
  unfold Launcher.resolve_local_project.
  destruct (is_empty (or_empty explicit)); simpl.
  - destruct (has_script sibling) eqn:E; [|done]. by intros [= <-].
  - destruct (has_script (resolve (or_empty explicit))) eqn:E; [|done].
    by intros [= <-].
Qed.

(** An explicit folder that holds the script, beside a sibling that holds
    it too. *)
Lemma resolved_project_has_script_witness :
  let has_script := λ p : str, true in
  has_script (lit "/home/u/elsewhere") = true ∧
  lit "/home/u/elsewhere" =
    (if is_empty (or_empty (Some (lit "elsewhere")))
     then lit "/home/u/Dictation-Local-SenseVoice"
     else lit "/home/u/" ++ or_empty (Some (lit "elsewhere"))).
Proof.
  intros has_script.
  apply (resolved_project_has_script (λ p, lit "/home/u/" ++ p) has_script
           (lit "/home/u/Dictation-Local-SenseVoice") (Some (lit "elsewhere"))
           (lit "/home/u/elsewhere")).
  vm_compute. reflexivity.
Defined.
